(** * all-pairs-edit-distance: the program of [src/main.cpp], embedded and verified

    The embedding follows [main.cpp] function by function.  Conventions:

    - [size_t] values that are lengths of, or indices into, a container or the
      distance matrix are [nat]: every one of them is bounded by the size of an
      object that exists in memory, so none of them wraps.  The one [size_t]
      expression of the program that does wrap, the progress total
      [lines.size() * (lines.size()-1) / 2], is computed in [Z] modulo [2^64].
    - A [std::string_view] is a pointer and a length.  Inside [string_split]
      and [load] the model writes a view as the characters it denotes when it
      is made; [==] on views compares characters.  The views that [load]
      keeps in its records point into the strings of [buffer], and [buffer]
      moves its strings to new storage when it grows.  A string of at most
      [local_capacity] characters has them inside the string object, so the
      views into it then point into storage that was freed.  To read through
      such a view is undefined behaviour; the program as built reads the bytes
      that the freed storage holds and goes on, and so does the model: [load]
      gives each record as [run] reads it, a view keeps its offset and its
      length, and the characters it finds in freed storage are those of
      [freed] (class [Heap]), which the program does not determine and which
      is taken to be the same at every read of one run.
    - Code with undefined behaviour (an index out of range, a read of a matrix
      cell that was never written, an integer division by zero) is explicit
      about it: pure code runs in the [option] monad, where [None] is the
      undefined behaviour, and code that writes to streams runs in [prog],
      where it is [Crash].
    - The loop [while (!fp.eof())] of [load] need not terminate and takes
      fuel; the loop of [string_split] terminates and is defined by
      well-founded recursion. *)

From stdpp Require Import base option list strings numbers gmap relations.
From Stdlib Require Import Ascii DecimalString.
From Equations Require Import Equations.

(** ** Counted loops *)

(** [for (size_t k = start; k < start + n; k++) s = body(k, s);] in a monad
    [M]: [option] for code that is pure up to undefined behaviour, [prog]
    (below) for code that writes to streams. *)
Fixpoint for_range {M : Type → Type} `{MRet M, MBind M} {St : Type}
    (n start : nat) (body : nat → St → M St) (s : St) : M St :=
  match n with
  | 0 => mret s
  | S n' => s' ← body start s; for_range n' (S start) body s'
  end.

(** [for (const auto& x : xs) body(x);] *)
Fixpoint for_each {M : Type → Type} `{MRet M, MBind M} {A : Type}
    (xs : list A) (body : A → M unit) : M unit :=
  match xs with
  | [] => mret ()
  | x :: xs' => body x;; for_each xs' body
  end.

(** ** [template<typename T> class Matrix] *)

Module Matrix.

(** [buffer] is [new T[r * c]]: its cells start uninitialised, [None]. *)
Record t : Type := Build { buffer : list (option nat); R : nat; C : nat }.

Definition new (r c : nat) : t :=
  {| buffer := replicate (r * c) None; R := r; C := c |}.

(** [matrix.at(i, j)] used as an rvalue: [buffer[i * C + j]]. *)
Definition at_ (m : t) (i j : nat) : option nat :=
  cell ← buffer m !! (i * C m + j); cell.

(** [matrix.at(i, j) = v]. *)
Definition set (m : t) (i j v : nat) : option t :=
  let k := i * C m + j in
  if decide (k < length (buffer m))
  then Some {| buffer := <[k := Some v]> (buffer m); R := R m; C := C m |}
  else None.

End Matrix.

(** ** [slow_edit_distance] *)

Section Kernel.
Context {T : Type} `{EqDecision T}.

(** The loop [while (len1 > 0 && len2 > 0 && one[len1-1] == two[len2-1])]:
    the pair [(len1, len2)] when it is left. *)
Fixpoint strip_suffix (one two : list T) (len1 len2 : nat) {struct len1}
  : option (nat * nat) :=
  match len1, len2 with
  | S l1, S l2 =>
      x ← one !! l1; y ← two !! l2;
      if decide (x = y) then strip_suffix one two l1 l2 else Some (len1, len2)
  | _, _ => Some (len1, len2)
  end.

(** Body of [for (size_t j = 1; j <= len2; j++)] inside row [i]. *)
Definition cell_step (one two : list T) (i j : nat) (m : Matrix.t)
  : option Matrix.t :=
  x ← one !! (i - 1); y ← two !! (j - 1);
  if decide (x = y) then
    d ← Matrix.at_ m (i - 1) (j - 1);
    Matrix.set m i j d
  else
    d ← Matrix.at_ m (i - 1) (j - 1);
    u ← Matrix.at_ m (i - 1) j;
    l ← Matrix.at_ m i (j - 1);
    Matrix.set m i j (1 + (d `min` (u `min` l))).

(** Body of [for (size_t i = 1; i <= len1; i++)]. *)
Definition row_step (one two : list T) (len2 i : nat) (m : Matrix.t)
  : option Matrix.t :=
  m ← Matrix.set m i 0 i;
  for_range len2 1 (cell_step one two i) m.

(** Lines 140-156: the table for the first [len1] tokens of [one] and the
    first [len2] tokens of [two], and its last cell. *)
Definition dp_table (one two : list T) (len1 len2 : nat) : option nat :=
  let m := Matrix.new (len1 + 1) (len2 + 1) in
  m ← Matrix.set m 0 0 0;
  m ← for_range len2 1 (λ j m, Matrix.set m 0 j j) m;
  m ← for_range len1 1 (row_step one two len2) m;
  Matrix.at_ m len1 len2.

Definition slow_edit_distance (one two : list T) : option nat :=
  '(len1, len2) ← strip_suffix one two (length one) (length two);
  if decide (len1 = 0) then Some len2
  else if decide (len2 = 0) then Some len1
  else dp_table one two len1 len2.

(** The computation of section 4.2 of the specification with its step 1, the
    stripping of the common suffix, left out: steps 2 and 3 on the whole
    sequences. *)
Definition plain_edit_distance (one two : list T) : option nat :=
  let len1 := length one in
  let len2 := length two in
  if decide (len1 = 0) then Some len2
  else if decide (len2 = 0) then Some len1
  else dp_table one two len1 len2.

End Kernel.


(** ** [string_split] *)

(** [from.find(c, pos)]; [None] is [npos]. *)
Fixpoint find (from : string) (c : ascii) (pos : nat) : option nat :=
  match from with
  | EmptyString => None
  | String a rest =>
      match pos with
      | 0 => if decide (a = c) then Some 0 else S <$> find rest c 0
      | S pos' => S <$> find rest c pos'
      end
  end.

Lemma find_bounds (from : string) (c : ascii) (pos next : nat) :
  find from c pos = Some next → pos ≤ next < String.length from.
Proof.
  revert pos next. induction from as [|a rest IH]; intros pos next; simpl; [done|].
  destruct pos as [|pos].
  - case_decide; [intros [= <-]; lia|].
    destruct (find rest c 0) as [n|] eqn:Hn; [|done]. intros [= <-].
    apply IH in Hn. lia.
  - destruct (find rest c pos) as [n|] eqn:Hn; [|done]. intros [= <-].
    apply IH in Hn. lia.
Defined.

Definition inspect {A : Type} (a : A) : {b : A | a = b} := exist _ a eq_refl.

(** The loop of lines 167-171 followed by lines 172-173, from the loop head
    with the variables [current] and [output]; [next] is recomputed at the
    head, as the source does before the loop and at the end of its body.
    [std::string_view(from.data() + current, n)] is [String.substring current n from]. *)
Equations? string_split_loop (from : string) (c : ascii) (current : nat)
    (output : list string) : list string
  by wf (String.length from - current) lt :=
  string_split_loop from c current output with inspect (find from c current) := {
    | exist _ (Some next) Hnext =>
        string_split_loop from c (next + 1)
          (output ++ [String.substring current (next - current) from]);
    | exist _ None _ =>
        if decide (current ≠ String.length from)
        then output ++ [String.substring current (String.length from - current) from]
        else output }.
Proof. apply find_bounds in Hnext. lia. Defined.

Definition string_split (from : string) (c : ascii) : list string :=
  string_split_loop from c 0 [].

(** ** Records *)

Definition tab : ascii := "009"%char.
Definition newline : ascii := "010"%char.
Definition space : ascii := " "%char.

(** [typedef std::vector<std::string_view> Field;] *)
Abbreviation Field := (list string) (only parsing).

Module Line.
Record t : Type := Build { id : string; fields : list Field }.
End Line.

(** ** The process and its environment *)

Inductive fault : Type :=
| Division_by_zero   (** integer division by zero *)
| Out_of_range.      (** [operator[]] past the end of a vector, or [argv[k]] null *)

(** [files]: the files that can be opened for reading, with their content.
    [unwritable]: the paths at which no file can be opened for writing.
    [cerr]: the lines written to [std::cerr]; the drawing of the progress bar
    is formatted from [double]s and the clock and is not recorded. *)
Record world : Type := World {
  files : gmap string string;
  unwritable : gset string;
  cerr : list string }.

Inductive result (A : Type) : Type :=
| Done (a : A) (w : world)      (** returned [a], leaving the world [w] *)
| Crash (f : fault) (w : world) (** undefined behaviour [f] reached in [w] *)
| Out_of_fuel.
Arguments Done {A} a w.
Arguments Crash {A} f w.
Arguments Out_of_fuel {A}.

Definition prog (A : Type) : Type := world → result A.

Global Instance prog_ret : MRet prog := λ A a w, Done a w.
Global Instance prog_bind : MBind prog := λ A B k m w,
  match m w with
  | Done a w' => k a w'
  | Crash f w' => Crash f w'
  | Out_of_fuel => Out_of_fuel
  end.

Definition crash {A : Type} (f : fault) : prog A := λ w, Crash f w.
Definition out_of_fuel {A : Type} : prog A := λ _, Out_of_fuel.

(** A vector access [v[k]], given as the lookup [v !! k]. *)
Definition defined {A : Type} (o : option A) : prog A :=
  match o with Some a => mret a | None => crash Out_of_range end.

(** [std::cerr << ... << std::endl;] *)
Definition cerr_put (s : string) : prog unit := λ w,
  Done () {| files := files w; unwritable := unwritable w; cerr := cerr w ++ [s] |}.

Module ifstream.
(** [rest]: the characters not read yet. *)
Record t : Type := Build { rest : string; eofbit : bool; failbit : bool }.

(** [std::ifstream fp(filename);] *)
Definition open (filename : string) : prog t := λ w,
  match files w !! filename with
  | Some data => Done {| rest := data; eofbit := false; failbit := false |} w
  | None => Done {| rest := ""; eofbit := false; failbit := true |} w
  end.

Definition good (fp : t) : bool := negb (eofbit fp) && negb (failbit fp).
End ifstream.

(** The characters before the first newline, and what follows that newline
    if there is one. *)
Fixpoint take_line (s : string) : string * option string :=
  match s with
  | EmptyString => ("", None)
  | String a s' =>
      if decide (a = newline) then ("", Some s')
      else let '(l, r) := take_line s' in (String a l, r)
  end.

(** [std::getline(fp, line)]: on a stream that is not good it sets [failbit]
    and leaves [line] alone; otherwise it clears [line] and reads up to and
    including the next newline, setting [eofbit] when the input ends first and
    also [failbit] when it then has read nothing. *)
Definition getline (fp : ifstream.t) (line : string) : ifstream.t * string :=
  if ifstream.good fp then
    match take_line (ifstream.rest fp) with
    | (l, Some r) => ({| ifstream.rest := r; ifstream.eofbit := false;
                         ifstream.failbit := false |}, l)
    | (l, None) => ({| ifstream.rest := ""; ifstream.eofbit := true;
                       ifstream.failbit := bool_decide (l = "") |}, l)
    end
  else ({| ifstream.rest := ifstream.rest fp; ifstream.eofbit := ifstream.eofbit fp;
           ifstream.failbit := true |}, line).

Module ofstream.
Record t : Type := Build { path : string; is_open : bool }.

(** [std::ofstream fout(filename);]: creates the file, or empties it. *)
Definition open (filename : string) : prog t := λ w,
  if decide (filename ∈ unwritable w)
  then Done {| path := filename; is_open := false |} w
  else Done {| path := filename; is_open := true |}
            {| files := <[filename := ""]> (files w);
               unwritable := unwritable w; cerr := cerr w |}.

(** [fout << s]; a stream that failed to open ignores it. *)
Definition put (fout : t) (s : string) : prog unit := λ w,
  if is_open fout
  then Done () {| files := alter (λ data, data +:+ s) (path fout) (files w);
                  unwritable := unwritable w; cerr := cerr w |}
  else Done () w.
End ofstream.

(** [fout << n] for a [size_t]. *)
Definition decimal (n : nat) : string := NilEmpty.string_of_uint (Nat.to_uint n).

(** ** The storage of [buffer] *)

(** libstdc++ keeps a [std::string] of at most 15 characters inside the string
    object ([_S_local_capacity]); a longer one has its characters on the heap,
    and a move of the string hands them over where they are. *)
Definition local_capacity : nat := 15.

(** [freed buffer slot pos]: the character that is read at offset [pos] of the
    place where the string in slot [slot] of [buffer] had its characters when
    the views into it were made, once [buffer] has grown and freed that
    place; [buffer] is all the lines that were stored.  The program does not
    determine it: it is the state of the freed storage in one run. *)
Class Heap : Type := freed : list string → nat → nat → ascii.

(** The characters read through a view of [len] characters at offset [pos] of
    a place whose characters are now [g]. *)
Definition reread (g : nat → ascii) (pos len : nat) : string :=
  String.string_of_list_ascii (g <$> seq pos len).

(** The same for views that lie one after the other from [pos] on, one
    separator apart, as [string_split] makes them; [views] are the characters
    the views denoted when they were made. *)
Fixpoint reread_views (g : nat → ascii) (pos : nat) (views : list string)
  : list string :=
  match views with
  | [] => []
  | view :: views' =>
      reread g pos (String.length view)
        :: reread_views g (pos + String.length view + 1) views'
  end.

(** The fields of a record: the views into each chunk after the first. *)
Fixpoint reread_fields (g : nat → ascii) (pos : nat) (chunks : list string)
  : list Field :=
  match chunks with
  | [] => []
  | chunk :: chunks' =>
      reread_views g pos (string_split chunk space)
        :: reread_fields g (pos + String.length chunk + 1) chunks'
  end.

(** What is read through the views of the record that [load] made of [line],
    when the place the views point into holds the characters [g]: each view
    has the offset and the length that it got from [line]. *)
Definition stale_record (g : nat → ascii) (line : string) : Line.t :=
  match string_split line tab with
  | [] => {| Line.id := ""; Line.fields := [] |}
  | id :: chunks =>
      {| Line.id := reread g 0 (String.length id);
         Line.fields := reread_fields g (String.length id + 1) chunks |}
  end.

(** The views into the string of slot [slot] point into freed storage: the
    string holds its characters inside the object, and [buffer] has moved it
    since, that is, it was among the [relocated] strings the last time
    [buffer] grew. *)
Definition dangling (relocated slot : nat) (line : string) : Prop :=
  slot < relocated ∧ String.length line ≤ local_capacity.

Global Instance dangling_dec relocated slot line :
  Decision (dangling relocated slot line).
Proof. unfold dangling. apply _. Defined.

(** A record as [run] reads it through its views, which point into slot
    [entry.1]; [entry.2] has the characters they denoted when they were
    made. *)
Definition read_back {heap : Heap} (buffer : list string) (relocated : nat)
    (entry : nat * Line.t) : Line.t :=
  match buffer !! entry.1 with
  | Some line =>
      if decide (dangling relocated entry.1 line)
      then stale_record (freed buffer entry.1) line
      else entry.2
  | None => entry.2
  end.

(** ** [load] *)

Module load_state.
(** The locals of [load] that live across iterations.  [capacity] is
    [buffer.capacity()], and [relocated] the number of strings that [buffer]
    moved to new storage when it last grew.  An entry of [lines] is a record
    with the slot of [buffer] that its views point into; the record is
    written with the characters the views denote when they are made.
    [num_fields] is an [ssize_t]. *)
Record t : Type := Build {
  buffer : list string;
  capacity : nat;
  relocated : nat;
  lines : list (nat * Line.t);
  num_fields : Z }.
End load_state.

Definition malformed (line : string) : string := "malformed line: " +:+ line.

(** [buffer.emplace_back(std::move(line))].  A vector that is full takes new
    storage for [size + max(size, 1)] elements (libstdc++), moves its
    strings there and frees the storage they were in. *)
Definition emplace_back (line : string) (st : load_state.t) : load_state.t :=
  let size := length (load_state.buffer st) in
  let full := bool_decide (size = load_state.capacity st) in
  {| load_state.buffer := load_state.buffer st ++ [line];
     load_state.capacity :=
       if full then size + (size `max` 1) else load_state.capacity st;
     load_state.relocated := if full then size else load_state.relocated st;
     load_state.lines := load_state.lines st;
     load_state.num_fields := load_state.num_fields st |}.

(** [lines.emplace_back(std::move(parsed))], and [num_fields] as it then is. *)
Definition emplace_line (entry : nat * Line.t) (num_fields : Z)
    (st : load_state.t) : load_state.t :=
  {| load_state.buffer := load_state.buffer st;
     load_state.capacity := load_state.capacity st;
     load_state.relocated := load_state.relocated st;
     load_state.lines := load_state.lines st ++ [entry];
     load_state.num_fields := num_fields |}.

(** Lines 215-216. *)
Definition split_fields (chunks : list string) : option (list Field) :=
  for_range (length chunks - 1) 1
    (λ i fields, chunk ← chunks !! i; Some (fields ++ [string_split chunk space])) [].

(** Lines 198-218: the body of the loop after [std::getline].  The views of
    [chunks], and those of the record made of them, point into
    [buffer.back()]. *)
Definition load_line (line : string) (st : load_state.t) : prog load_state.t :=
  if decide (line = "") then mret st
  else
    let slot := length (load_state.buffer st) in
    let st := emplace_back line st in
    let chunks := string_split line tab in
    if decide (length chunks ≤ 1) then
      cerr_put (malformed line);;
      mret st
    else
      id ← defined (chunks !! 0);
      if decide (load_state.num_fields st < 0)%Z then
        fields ← defined (split_fields chunks);
        mret (emplace_line (slot, {| Line.id := id; Line.fields := fields |})
                (Z.of_nat (length chunks - 1)) st)
      else if decide (Z.of_nat (length chunks - 1) ≠ load_state.num_fields st) then
        cerr_put (malformed line);;
        mret st
      else
        fields ← defined (split_fields chunks);
        mret (emplace_line (slot, {| Line.id := id; Line.fields := fields |})
                (load_state.num_fields st) st).

(** [while (!fp.eof()) { std::getline(fp, line); ... }].  A line that was
    moved into [buffer] is left empty (as libstdc++ and libc++ leave it); the
    next [getline] on a good stream clears it in any case. *)
Fixpoint load_loop (fuel : nat) (fp : ifstream.t) (line : string)
    (st : load_state.t) : prog load_state.t :=
  match fuel with
  | 0 => out_of_fuel
  | S fuel' =>
      if ifstream.eofbit fp then mret st
      else
        let '(fp', line') := getline fp line in
        st' ← load_line line' st;
        load_loop fuel' fp' (if decide (line' = "") then line' else "") st'
  end.

(** The pair [load] returns is moved out of it and into [run], strings and
    records staying where they are; the records are given as [run] reads
    them through their views. *)
Definition load {heap : Heap} (fuel : nat) (filename : string)
  : prog (list string * list Line.t) :=
  fp ← ifstream.open filename;
  st ← load_loop fuel fp ""
         {| load_state.buffer := []; load_state.capacity := 0;
            load_state.relocated := 0; load_state.lines := [];
            load_state.num_fields := (-1)%Z |};
  mret (load_state.buffer st,
        read_back (load_state.buffer st) (load_state.relocated st)
          <$> load_state.lines st).

(** ** [class Progbar] *)

(** [size_t] arithmetic that can wrap is done in [Z] modulo [2^64]. *)
Definition size_t_mod : Z := (2 ^ 64)%Z.
Definition size_t_wrap (z : Z) : Z := (z mod size_t_mod)%Z.

Module Progbar.
Record t : Type := Build { current : Z; total : Z }.

Definition LENGTH : Z := 40.

(** [print()]: its integer arithmetic.  Line 58 divides [double]s, which
    does not trap; line 59, [current * LENGTH / total], divides [size_t]s. *)
Definition print (bar : t) : prog unit :=
  let mod_ := (1 `max` (total bar `div` 100000))%Z in
  if decide (current bar `mod` mod_ ≠ 0)%Z then mret ()
  else if decide (total bar = 0)%Z then crash Division_by_zero
  else
    let length_ := (size_t_wrap (current bar * LENGTH) `div` total bar)%Z in
    mret ().

(** The constructor. *)
Definition new (total : Z) : prog t :=
  let bar := {| current := 0; total := total |} in
  print bar;; mret bar.

Definition inc (bar : t) : prog t :=
  if decide (total bar ≤ current bar)%Z then mret bar
  else
    let bar := {| current := size_t_wrap (current bar + 1); total := total bar |} in
    print bar;; mret bar.
End Progbar.

(** ** [process] and [run] *)

(** Lines 227-232. *)
Definition process_eds (one two : Line.t) : option (list nat) :=
  let num_fields := length (Line.fields one) in
  for_range num_fields 0
    (λ field eds,
       a ← Line.fields one !! field;
       b ← Line.fields two !! field;
       ed ← slow_edit_distance a b;
       Some (eds ++ [ed])) [].

(** Lines 236-239, the line written under [output_lock]. *)
Definition write_result (fout : ofstream.t) (one two : Line.t) (eds : list nat)
  : prog unit :=
  ofstream.put fout (Line.id one);;
  ofstream.put fout (String tab "");;
  ofstream.put fout (Line.id two);;
  for_each eds (λ ed, ofstream.put fout (String tab "");;
                      ofstream.put fout (decimal ed));;
  ofstream.put fout (String newline "").

Definition process (fout : ofstream.t) (progbar : Progbar.t) (one two : Line.t)
  : prog Progbar.t :=
  eds ← defined (process_eds one two);
  write_result fout one two eds;;
  Progbar.inc progbar.

(** [lines.size() * (lines.size()-1) / 2] in [size_t]. *)
Definition progbar_total (n : nat) : Z :=
  (size_t_wrap (Z.of_nat n * size_t_wrap (Z.of_nat n - 1)) `div` 2)%Z.

(** Lines 253-257, with the iterations in program order: what the loop means
    when [#pragma omp parallel for] is not in effect, and one of the orders
    in which the parallel loop may run them. *)
Definition run_pairs (fout : ofstream.t) (lines : list Line.t)
    (progbar : Progbar.t) : prog Progbar.t :=
  for_range (length lines) 0
    (λ i progbar,
       for_range (length lines - (i + 1)) (i + 1)
         (λ j progbar,
            one ← defined (lines !! i);
            two ← defined (lines !! j);
            process fout progbar one two) progbar) progbar.

Definition run {heap : Heap} (fuel : nat) (filename_in filename_out : string)
  : prog unit :=
  loaded ← load fuel filename_in;
  fout ← ofstream.open filename_out;
  let lines := loaded.2 in
  progbar ← Progbar.new (progbar_total (length lines));
  run_pairs fout lines progbar;;
  mret ().

(** ** [main] *)

Definition EXIT_SUCCESS : Z := 0.
Definition EXIT_FAILURE : Z := 1.

Definition usage (argv0 : string) : prog unit :=
  cerr_put ("usage: " +:+ argv0 +:+ " <input file> <output file> [<field>]").

Section Main.
(** [PACKAGE_VERSION] comes from [all-pairs-edit-distance-config.h], which
    the build generates. *)
Variable PACKAGE_VERSION : string.
Context {heap : Heap}.

(** [argc] is [length argv]. *)
Definition main (fuel : nat) (argv : list string) : prog Z :=
  let argc := length argv in
  if decide (argc < 3) then
    argv0 ← defined (argv !! 0);
    usage argv0;;
    mret EXIT_FAILURE
  else
    argv0 ← defined (argv !! 0);
    argv1 ← defined (argv !! 1);
    argv2 ← defined (argv !! 2);
    if bool_decide ("--help" = argv1) || bool_decide ("--help" = argv2) then
      usage argv0;;
      mret EXIT_SUCCESS
    else if bool_decide ("--version" = argv1) || bool_decide ("--version" = argv2) then
      cerr_put (argv0 +:+ " " +:+ PACKAGE_VERSION);;
      mret EXIT_SUCCESS
    else
      run fuel argv1 argv2;;
      mret EXIT_SUCCESS.
End Main.

(** ** What an edit distance is *)

Section EditSpec.
Context {T : Type}.

(** One single-token edit: an insertion, a deletion or a substitution at any
    position of the sequence. *)
Inductive edit_step : list T → list T → Prop :=
| edit_insert (l r : list T) (x : T) : edit_step (l ++ r) (l ++ x :: r)
| edit_delete (l r : list T) (x : T) : edit_step (l ++ x :: r) (l ++ r)
| edit_substitute (l r : list T) (x y : T) :
    edit_step (l ++ x :: r) (l ++ y :: r).

(** [edits n A B]: some [n] single-token edits, one after the other,
    transform [A] into [B]. *)
Inductive edits : nat → list T → list T → Prop :=
| edits_done (A : list T) : edits 0 A A
| edits_step (n : nat) (A A' B : list T) :
    edit_step A A' → edits n A' B → edits (S n) A B.

(** [d] is the least number of edits that transform [A] into [B]. *)
Definition min_edits (d : nat) (A B : list T) : Prop :=
  edits d A B ∧ ∀ n, edits n A B → d ≤ n.

(** The textbook recurrence, on the heads of the sequences; the table of
    [dp_table] is related to it in the proofs below. *)
Fixpoint lev `{EqDecision T} (a b : list T) : nat :=
  match a with
  | [] => length b
  | x :: a' =>
      (fix lev_row (b : list T) : nat :=
         match b with
         | [] => length a
         | y :: b' =>
             if decide (x = y) then lev a' b'
             else S (lev a' b' `min` (lev a' b `min` lev_row b'))
         end) b
  end.

End EditSpec.

(** ** Invariants of the distance table *)

Section TableInvariant.
Context {T : Type} `{EqDecision T}.

(** The distance between the first [i] tokens of [one] and the first [j]
    tokens of [two]; the table compares last tokens, [lev] compares heads. *)
Definition lev_prefix (one two : list T) (i j : nat) : nat :=
  lev (reverse (take i one)) (reverse (take j two)).

(** The matrix has the shape [(len1+1) x (len2+1)], and every cell that
    [known] lists has been written with the distance of its two prefixes. *)
Definition table_inv (one two : list T) (len1 len2 : nat)
    (known : nat → nat → Prop) (m : Matrix.t) : Prop :=
  Matrix.C m = len2 + 1 ∧
  length (Matrix.buffer m) = (len1 + 1) * (len2 + 1) ∧
  ∀ i j, i ≤ len1 → j ≤ len2 → known i j →
    Matrix.at_ m i j = Some (lev_prefix one two i j).

End TableInvariant.

(** ** What splitting is *)

(** Every segment of [s] between two occurrences of [c], before the first, and
    after the last, the empty ones included: one segment more than [s] has
    occurrences of [c]. *)
Fixpoint segments (s : string) (c : ascii) : list string :=
  match s with
  | EmptyString => [""]
  | String a s' =>
      if decide (a = c) then "" :: segments s' c
      else match segments s' c with
           | seg :: segs => String a seg :: segs
           | [] => [String a ""]
           end
  end.

(** [segments] without its last segment when that one is empty. *)
Fixpoint tokens (s : string) (c : ascii) : list string :=
  match s with
  | EmptyString => []
  | String a s' =>
      if decide (a = c) then "" :: tokens s' c
      else match tokens s' c with
           | seg :: segs => String a seg :: segs
           | [] => [String a ""]
           end
  end.

(** The segments put back together with [c] between them. *)
Fixpoint join (c : ascii) (segs : list string) : string :=
  match segs with
  | [] => ""
  | [seg] => seg
  | seg :: segs' => seg +:+ String c (join c segs')
  end.

(** [c] occurs in [s]. *)
Fixpoint occurs (c : ascii) (s : string) : Prop :=
  match s with
  | EmptyString => False
  | String a s' => a = c ∨ occurs c s'
  end.

(** ** What [load] keeps *)

(** The lines of a file as [std::getline] yields them one after the other:
    the segments between newlines (after a final newline, the empty rest). *)
Definition file_lines (content : string) : list string := segments content newline.

Definition chunk_count (line : string) : nat := length (string_split line tab).

(** A line that splits into at least two tab-delimited chunks. *)
Definition well_formed (line : string) : Prop := 2 ≤ chunk_count line.

Global Instance well_formed_dec line : Decision (well_formed line).
Proof. unfold well_formed. apply _. Defined.

(** The field count fixed by the first well-formed line, if there is one. *)
Definition field_count (ls : list string) : option nat :=
  (λ found, chunk_count found.2 - 1) <$> list_find well_formed ls.

(** A well-formed line with [nf] fields. *)
Definition kept (nf : nat) (line : string) : Prop :=
  well_formed line ∧ chunk_count line - 1 = nf.

Global Instance kept_dec nf line : Decision (kept nf line).
Proof. unfold kept. apply _. Defined.

(** What [load] accepts when its [num_fields] is [nf]. *)
Definition accepts (nf : Z) (line : string) : Prop :=
  well_formed line ∧ (nf < 0 ∨ Z.of_nat (chunk_count line - 1) = nf)%Z.

Global Instance accepts_dec nf line : Decision (accepts nf line).
Proof. unfold accepts. apply _. Defined.

(** The record of a line as its views denote it when they are made: chunk 0,
    and the other chunks split at spaces. *)
Definition record_of (line : string) : Line.t :=
  let chunks := string_split line tab in
  {| Line.id := default "" (head chunks);
     Line.fields := (λ chunk, string_split chunk space) <$> drop 1 chunks |}.

(** The body of the loop of [load] run on each of [ls] in turn. *)
Fixpoint load_lines (ls : list string) (st : load_state.t) : prog load_state.t :=
  match ls with
  | [] => mret st
  | line :: ls' => st' ← load_line line st; load_lines ls' st'
  end.

(** The entries [load] makes of the lines [ls] that [keep] holds of, when the
    first of them that is not blank goes to slot [slot] of [buffer]. *)
Fixpoint entries (keep : string → Prop) `{!∀ l, Decision (keep l)}
    (slot : nat) (ls : list string) : list (nat * Line.t) :=
  match ls with
  | [] => []
  | l :: ls' =>
      if decide (l = "") then entries keep slot ls'
      else (if decide (keep l) then [(slot, record_of l)] else [])
             ++ entries keep (S slot) ls'
  end.

(** The capacity of [buffer] and the number of strings it moved when it last
    grew, [v], after one string is stored in it when it holds [size]. *)
Definition grow (size : nat) (v : nat * nat) : nat * nat :=
  if decide (size = v.1) then (size + (size `max` 1), size) else v.

(** The same after [count] strings are stored. *)
Fixpoint grown (size : nat) (v : nat * nat) (count : nat) : nat * nat :=
  match count with
  | 0 => v
  | S count' => grown (S size) (grow size v) count'
  end.

(** How many strings [buffer] moved when it last grew, when [n] strings have
    been stored in it one by one. *)
Definition relocated_of (n : nat) : nat := (grown 0 (0, 0) n).2.

(** The store [load] returns when the lines of [buffer] were stored and [nf]
    is the field count: the records of the lines with [nf] fields, each as
    [run] reads it. *)
Definition store_of {heap : Heap} (nf : nat) (buffer : list string) : list Line.t :=
  read_back buffer (relocated_of (length buffer)) <$> entries (kept nf) 0 buffer.

(** Two records have the same fields and tokens in number, and their ids and
    tokens the same lengths. *)
Definition same_shape (r r' : Line.t) : Prop :=
  String.length (Line.id r) = String.length (Line.id r') ∧
  Forall2 (Forall2 (λ tok tok', String.length tok = String.length tok'))
          (Line.fields r) (Line.fields r').


Definition world_log (w : world) (msgs : list string) : world :=
  {| files := files w; unwritable := unwritable w; cerr := cerr w ++ msgs |}.

(** ** What [run] enumerates and writes *)

(** The index pairs in the order of the nested loops of [run]. *)
Definition all_pairs (n : nat) : list (nat * nat) :=
  i ← seq 0 n; j ← seq (i + 1) (n - (i + 1)); [(i, j)].


Fixpoint string_concat (ss : list string) : string :=
  match ss with
  | [] => ""
  | s :: ss' => s +:+ string_concat ss'
  end.

(** The pieces [process] hands to [fout], one per [<<]. *)
Definition result_pieces (one two : Line.t) (eds : list nat) : list string :=
  [Line.id one; String tab ""; Line.id two] ++
  (ed ← eds; [String tab ""; decimal ed]) ++ [String newline ""].

(** One output line: [id_one TAB id_two TAB d_1 ... TAB d_N NEWLINE]. *)
Definition result_line (one two : Line.t) (eds : list nat) : string :=
  string_concat (result_pieces one two eds).

(** [w] with [s] appended to the file at [path]. *)
Definition file_append (path s : string) (w : world) : world :=
  {| files := alter (λ data, data +:+ s) path (files w);
     unwritable := unwritable w; cerr := cerr w |}.

(** What a stream writes to: its file when it is open. *)
Definition written (fout : ofstream.t) (s : string) (w : world) : world :=
  if ofstream.is_open fout then file_append (ofstream.path fout) s w else w.

(** The output line of the pair [p] of record indices. *)
Definition pair_result (lines : list Line.t) (p : nat * nat) : option string :=
  one ← lines !! p.1;
  two ← lines !! p.2;
  eds ← process_eds one two;
  Some (result_line one two eds).

Definition pair_line (lines : list Line.t) (p : nat * nat) : string :=
  default "" (pair_result lines p).

(** Every record has [nf] fields. *)
Definition uniform (nf : nat) (lines : list Line.t) : Prop :=
  ∀ r, r ∈ lines → length (Line.fields r) = nf.


(** ** Sample inputs *)

Definition TAB : string := String tab "".
Definition NL : string := String newline "".

(** A world whose only file is [in.tsv], with the given content. *)
Definition world_of (content : string) : world :=
  {| files := {[ "in.tsv" := content ]}; unwritable := ∅; cerr := [] |}.

(** The two records of the end-to-end example of the specification. *)
Definition two_records : world :=
  world_of ("a" +:+ TAB +:+ "hello world" +:+ NL +:+
            "b" +:+ TAB +:+ "hallo world" +:+ NL).

(** The same without a newline after the last line. *)
Definition two_records_unterminated : world :=
  world_of ("a" +:+ TAB +:+ "hello world" +:+ NL +:+
            "b" +:+ TAB +:+ "hallo world").

(** One record. *)
Definition one_record : world := world_of ("a" +:+ TAB +:+ "hello world" +:+ NL).


(** Two records on lines longer than [local_capacity]. *)
Definition two_long_records : world :=
  world_of ("a" +:+ TAB +:+ "hello world again" +:+ NL +:+
            "b" +:+ TAB +:+ "hallo world again" +:+ NL).

(** A state of the freed storage: the thirteen bytes that a run of the
    program, built with GCC 12 against glibc, read on [two_records] in the
    place where the first line had had its characters (the place had been
    taken by the vector of the chunks of the second line); any other byte is
    taken to be 0. *)
Definition observed : Heap := λ _ _ pos,
  nth pos ["011"; "000"; "000"; "000"; "000"; "000"; "000"; "000";
           "178"; "033"; "080"; "045"; "206"]%char "000"%char.

(** A world without files. *)
Definition no_files : world := {| files := ∅; unwritable := ∅; cerr := [] |}.


(** ** The parallel loop of [run] and [output_lock] *)

(** [#pragma omp parallel for] hands the iterations of the loop over [i] to
    the threads of a team; a thread runs the iterations it is given one after
    the other, and in each of them the loop over [j].  [process] computes its
    distances from the store, which no thread writes, and then takes
    [output_lock] for the block of lines 234-241.  The steps below are those
    of the threads around and inside that block, interleaved in any order. *)
Module Sink.

(** A thread.  [todo]: the output lines of the pairs it has not finished, in
    its order, first the line it is at.  [pending]: [Some s] while the thread
    is inside the locked block, [s] being the characters of that line it has
    not handed to [fout] yet. *)
Record thread : Type := Thread { todo : list string; pending : option string }.

(** [locked]: [output_lock] is held.  [out]: the characters handed to [fout].
    [progress]: the calls of [progbar.inc()] so far. *)
Record state : Type := State {
  threads : list thread;
  locked : bool;
  out : string;
  progress : nat }.


(** The pairs of row [i], and their output lines. *)
Definition row_pairs (n i : nat) : list (nat * nat) :=
  j ← seq (i + 1) (n - (i + 1)); [(i, j)].

Definition row_lines (lines : list Line.t) (i : nat) : list string :=
  pair_line lines <$> row_pairs (length lines) i.

(** The team at the start of the loop, thread [t] having been given the rows
    [schedule !! t]; the output stream has just been opened. *)
Definition start (lines : list Line.t) (schedule : list (list nat)) : state :=
  {| threads := (λ rows, {| todo := rows ≫= row_lines lines; pending := None |})
                  <$> schedule;
     locked := false; out := ""; progress := 0 |}.

(** Every thread has finished its rows. *)
Definition idle (th : thread) : Prop := todo th = [] ∧ pending th = None.

Global Instance idle_dec th : Decision (idle th).
Proof. unfold idle. apply _. Defined.

Definition finished (s : state) : Prop := Forall idle (threads s).

(** What the stream holds when [done] are the lines written so far: those
    lines, whole, followed by the part already written of the line of the
    thread that holds the lock, if one does; and no other thread is inside
    the block. *)
Definition consistent (s : state) (done : list string) : Prop :=
  if locked s then
    ∃ t td line pre rest,
      threads s !! t = Some {| todo := line :: td; pending := Some rest |} ∧
      line = pre +:+ rest ∧
      out s = string_concat done +:+ pre ∧
      ∀ t' th, t' ≠ t → threads s !! t' = Some th → pending th = None
  else
    out s = string_concat done ∧
    ∀ th, th ∈ threads s → pending th = None.

(** [all] are the lines to write; [done] of them are written, the others are
    still to do. *)
Definition inv (all : list string) (s : state) : Prop :=
  ∃ done,
    done ++ (threads s ≫= todo) ≡ₚ all ∧
    progress s = length done ∧
    consistent s done.



End Sink.

From Stdlib Require Import DecimalNat DecimalFacts.

(** ** Vocabulary of the further properties *)

(** How often [c] occurs in [s]. *)
Fixpoint count_sep (c : ascii) (s : string) : nat :=
  match s with
  | EmptyString => 0
  | String a s' => (if decide (a = c) then 1 else 0) + count_sep c s'
  end.

(** The last character of [s]. *)
Fixpoint last_char (s : string) : option ascii :=
  match s with
  | EmptyString => None
  | String a s' => match s' with EmptyString => Some a | _ => last_char s' end
  end.

(** The decimal digits. *)
Definition digits : list ascii :=
  ["0"; "1"; "2"; "3"; "4"; "5"; "6"; "7"; "8"; "9"]%char.

(** Lines 59, 64-69 and 82 of [Progbar::print]: the characters it draws
    between the brackets of the bar. *)
Definition bar_cells (bar : Progbar.t) : list ascii :=
  let length_ :=
    Z.to_nat (size_t_wrap (Progbar.current bar * Progbar.LENGTH)
              `div` Progbar.total bar) in
  replicate length_ "="%char ++
  (if decide (Progbar.current bar < Progbar.total bar)%Z
   then ">"%char :: replicate (Z.to_nat Progbar.LENGTH - (length_ + 1)) " "%char
   else []).

(** * Proofs *)

(** ** The recurrence [lev] computes the least number of edits *)

Section LevTheory.
Context {T : Type} `{EqDecision T}.
Implicit Types (a b c l r : list T) (x y z : T).

Lemma lev_nil_l b : lev [] b = length b.
Proof. reflexivity. Qed.

Lemma lev_nil_r a : lev a [] = length a.
Proof. destruct a; reflexivity. Qed.

Lemma lev_cons x a y b :
  lev (x :: a) (y :: b) =
    if decide (x = y) then lev a b
    else S (lev a b `min` (lev a (y :: b) `min` lev (x :: a) b)).
Proof. reflexivity. Qed.

Lemma lev_cons_eq x a b : lev (x :: a) (x :: b) = lev a b.
Proof. rewrite lev_cons. by rewrite decide_True. Qed.

Lemma lev_refl a : lev a a = 0.
Proof. induction a as [|x a IH]; [done|]. by rewrite lev_cons_eq. Qed.

(** Adding or removing one head token on either side moves [lev] by at
    most one. *)
Lemma lev_head_step n :
  ∀ a b, length a + length b ≤ n → ∀ x,
    lev a b ≤ S (lev (x :: a) b) ∧ lev (x :: a) b ≤ S (lev a b) ∧
    lev a b ≤ S (lev a (x :: b)) ∧ lev a (x :: b) ≤ S (lev a b).
Proof.
  induction n as [n IH] using lt_wf_ind. intros a b Hn x.
  assert (IH' : ∀ a' b', length a' + length b' < length a + length b → ∀ x',
    lev a' b' ≤ S (lev (x' :: a') b') ∧ lev (x' :: a') b' ≤ S (lev a' b') ∧
    lev a' b' ≤ S (lev a' (x' :: b')) ∧ lev a' (x' :: b') ≤ S (lev a' b')).
  { intros a' b' Hlt x'. apply (IH (length a' + length b')); lia. }
  clear IH Hn. repeat split.
  - destruct b as [|y b'].
    + rewrite !lev_nil_r. simpl. lia.
    + rewrite lev_cons. destruct (IH' a b' ltac:(simpl; lia) y) as (_ & _ & _ & R2).
      destruct (IH' a b' ltac:(simpl; lia) x) as (L1 & _).
      case_decide; lia.
  - destruct b as [|y b'].
    + rewrite !lev_nil_r. simpl. lia.
    + rewrite lev_cons. destruct (IH' a b' ltac:(simpl; lia) y) as (_ & _ & R1 & _).
      case_decide; lia.
  - destruct a as [|z a'].
    + rewrite !lev_nil_l. simpl. lia.
    + rewrite lev_cons. destruct (IH' a' b ltac:(simpl; lia) z) as (_ & L2 & _).
      destruct (IH' a' b ltac:(simpl; lia) x) as (_ & _ & R1 & _).
      case_decide; lia.
  - destruct a as [|z a'].
    + rewrite !lev_nil_l. simpl. lia.
    + rewrite lev_cons. destruct (IH' a' b ltac:(simpl; lia) z) as (L1 & _).
      case_decide; lia.
Qed.

Lemma lev_drop_head x a b : lev a b ≤ S (lev (x :: a) b).
Proof. by eapply lev_head_step. Qed.

Lemma lev_add_head x a b : lev (x :: a) b ≤ S (lev a b).
Proof. by eapply lev_head_step. Qed.

Lemma lev_drop_head_r x a b : lev a b ≤ S (lev a (x :: b)).
Proof. by eapply lev_head_step. Qed.

Lemma lev_swap_head x y a b : lev (x :: a) b ≤ S (lev (y :: a) b).
Proof.
  induction b as [|w b IH].
  - rewrite !lev_nil_r. simpl. lia.
  - rewrite !lev_cons.
    pose proof (lev_drop_head_r w a b). pose proof (lev_drop_head y a b).
    repeat case_decide; lia.
Qed.

(** A bound that holds against every right-hand sequence survives a common
    head token. *)
Lemma lev_under_head a a' :
  (∀ c, lev a c ≤ S (lev a' c)) → ∀ z c, lev (z :: a) c ≤ S (lev (z :: a') c).
Proof.
  intros Hle z c. induction c as [|w c IH].
  - rewrite !lev_nil_r. specialize (Hle []). rewrite !lev_nil_r in Hle. simpl. lia.
  - rewrite !lev_cons. pose proof (Hle c). pose proof (Hle (w :: c)).
    case_decide; lia.
Qed.

Lemma lev_under_prefix l a a' :
  (∀ c, lev a c ≤ S (lev a' c)) → ∀ c, lev (l ++ a) c ≤ S (lev (l ++ a') c).
Proof.
  intros Hle. induction l as [|z l IH]; [done|].
  intros c. simpl. by apply lev_under_head.
Qed.

Lemma lev_edit_step a a' c : edit_step a a' → lev a c ≤ S (lev a' c).
Proof.
  intros Hstep. revert c. destruct Hstep as [l r x|l r x|l r x y];
    apply lev_under_prefix; intros c.
  - apply lev_drop_head.
  - apply lev_add_head.
  - apply lev_swap_head.
Qed.

Lemma lev_lower_bound n a b : edits n a b → lev a b ≤ n.
Proof.
  induction 1 as [a|n a a' b Hstep _ IH].
  - by rewrite lev_refl.
  - pose proof (lev_edit_step a a' b Hstep). lia.
Qed.

End LevTheory.

(** ** Edit scripts: congruence, reversal, and the script [lev] counts *)

Section EditsTheory.
Context {T : Type}.
Implicit Types (a b c l r : list T) (x y z : T).

Lemma edit_step_cons x a b : edit_step a b → edit_step (x :: a) (x :: b).
Proof.
  destruct 1 as [l r w|l r w|l r w w'].
  - apply (edit_insert (x :: l)).
  - apply (edit_delete (x :: l)).
  - apply (edit_substitute (x :: l)).
Qed.

Lemma edits_cons x n a b : edits n a b → edits n (x :: a) (x :: b).
Proof.
  induction 1 as [a|n a a' b Hstep _ IH]; [constructor|].
  eapply edits_step; [by apply edit_step_cons|done].
Qed.

Lemma edits_insert_all b : edits (length b) [] b.
Proof.
  induction b as [|y b IH]; [constructor|]. simpl.
  eapply edits_step; [apply (edit_insert [] [] y)|]. by apply edits_cons.
Qed.

Lemma edits_delete_all a : edits (length a) a [].
Proof.
  induction a as [|x a IH]; [constructor|]. simpl.
  eapply edits_step; [apply (edit_delete [] a x)|]. done.
Qed.

Lemma reverse_middle l r x : reverse (l ++ x :: r) = reverse r ++ x :: reverse l.
Proof. by rewrite reverse_app, reverse_cons, <- (assoc_L (++)). Qed.

Lemma edit_step_reverse a b : edit_step a b → edit_step (reverse a) (reverse b).
Proof.
  destruct 1 as [l r w|l r w|l r w w']; rewrite ?reverse_middle, ?reverse_app.
  - apply edit_insert.
  - apply edit_delete.
  - apply edit_substitute.
Qed.

Lemma edits_reverse n a b : edits n a b → edits n (reverse a) (reverse b).
Proof.
  induction 1 as [a|n a a' b Hstep _ IH]; [constructor|].
  eapply edits_step; [by apply edit_step_reverse|done].
Qed.

Lemma min_edits_reverse d a b : min_edits d a b → min_edits d (reverse a) (reverse b).
Proof.
  intros [Hd Hmin]. split; [by apply edits_reverse|].
  intros n Hn. apply Hmin. apply edits_reverse in Hn.
  by rewrite !reverse_involutive in Hn.
Qed.

Lemma min_edits_unique d d' a b : min_edits d a b → min_edits d' a b → d = d'.
Proof.
  intros [Hd Hmin] [Hd' Hmin']. apply Hmin in Hd'. apply Hmin' in Hd. lia.
Qed.

Context `{EqDecision T}.

Lemma lev_edits a b : edits (lev a b) a b.
Proof.
  revert b. induction a as [|x a IHa]; intros b.
  - rewrite lev_nil_l. apply edits_insert_all.
  - induction b as [|y b IHb].
    + rewrite lev_nil_r. apply edits_delete_all.
    + rewrite lev_cons. case_decide as Hxy.
      * subst y. apply edits_cons, IHa.
      * destruct (Nat.min_spec (lev a b) (lev a (y :: b) `min` lev (x :: a) b))
          as [[_ ->]|[_ ->]];
        [|destruct (Nat.min_spec (lev a (y :: b)) (lev (x :: a) b)) as [[_ ->]|[_ ->]]].
        -- eapply edits_step; [apply (edit_substitute [] a x y)|].
           apply edits_cons, IHa.
        -- eapply edits_step; [apply (edit_delete [] a x)|]. apply IHa.
        -- eapply edits_step; [apply (edit_insert [] (x :: a) y)|].
           apply edits_cons, IHb.
Qed.

(** [lev] is the edit distance. *)
Lemma lev_min_edits a b : min_edits (lev a b) a b.
Proof. split; [apply lev_edits|]. intros n. apply lev_lower_bound. Qed.

Lemma lev_reverse a b : lev (reverse a) (reverse b) = lev a b.
Proof.
  eapply min_edits_unique; [|apply lev_min_edits].
  rewrite <- (reverse_involutive a), <- (reverse_involutive b) at 2.
  apply min_edits_reverse, lev_min_edits.
Qed.

Lemma lev_common_prefix l a b : lev (l ++ a) (l ++ b) = lev a b.
Proof. induction l as [|x l IH]; [done|]. by rewrite <- !app_comm_cons, lev_cons_eq. Qed.

Lemma lev_common_suffix r a b : lev (a ++ r) (b ++ r) = lev a b.
Proof.
  rewrite <- lev_reverse, !reverse_app, lev_common_prefix. apply lev_reverse.
Qed.

End EditsTheory.

(** ** The table of [slow_edit_distance] holds [lev] of the prefixes *)

Lemma for_range_inv {St : Type} (Inv : nat → St → Prop) n start body (s : St) :
  Inv start s →
  (∀ k s0, start ≤ k < start + n → Inv k s0 →
     ∃ s1, body k s0 = Some s1 ∧ Inv (S k) s1) →
  ∃ s', for_range n start body s = Some s' ∧ Inv (start + n) s'.
Proof.
  revert start s. induction n as [|n IH]; intros start s Hs Hbody.
  - exists s. rewrite Nat.add_0_r. done.
  - destruct (Hbody start s ltac:(lia) Hs) as (s1 & Hs1 & Hinv1).
    destruct (IH (S start) s1 Hinv1) as (s' & Hs' & Hinv').
    { intros k s0 Hk. apply Hbody. lia. }
    exists s'. simpl. rewrite Hs1. simpl. rewrite Hs'.
    by replace (start + S n) with (S start + n) by lia.
Qed.

(** Distinct cells of a row-major matrix have distinct offsets. *)
Lemma row_major_inj (c i j i' j' : nat) :
  j < c → j' < c → i * c + j = i' * c + j' → i = i' ∧ j = j'.
Proof.
  intros Hj Hj' Heq.
  assert (i = i') as -> by nia. split; [done|lia].
Qed.

Section KernelProofs.
Context {T : Type} `{EqDecision T}.
Variables one two : list T.
Local Abbreviation levp := (lev_prefix one two).

Lemma lev_prefix_0_l j : j ≤ length two → levp 0 j = j.
Proof.
  intros Hj. unfold lev_prefix. rewrite take_0, reverse_nil, lev_nil_l.
  rewrite length_reverse, length_take. lia.
Qed.

Lemma lev_prefix_0_r i : i ≤ length one → levp i 0 = i.
Proof.
  intros Hi. unfold lev_prefix. rewrite take_0, reverse_nil, lev_nil_r.
  rewrite length_reverse, length_take. lia.
Qed.

Lemma lev_prefix_S i j x y :
  one !! i = Some x → two !! j = Some y →
  levp (S i) (S j) =
    if decide (x = y) then levp i j
    else S (levp i j `min` (levp i (S j) `min` levp (S i) j)).
Proof.
  intros Hx Hy. unfold lev_prefix.
  rewrite (take_S_r one i x Hx), (take_S_r two j y Hy).
  rewrite !reverse_snoc. apply lev_cons.
Qed.

Lemma lev_prefix_full : levp (length one) (length two) = lev one two.
Proof. unfold lev_prefix. rewrite !firstn_all. apply lev_reverse. Qed.

Section Table.
Variables len1 len2 : nat.
Local Abbreviation inv := (table_inv one two len1 len2).

Lemma table_inv_weaken (known known' : nat → nat → Prop) m :
  inv known m →
  (∀ i j, i ≤ len1 → j ≤ len2 → known' i j → known i j) →
  inv known' m.
Proof. intros (HC & Hlen & Hcells) Hsub. repeat split; auto. Qed.

Lemma table_inv_set (known : nat → nat → Prop) m i j :
  inv known m → i ≤ len1 → j ≤ len2 →
  ∃ m', Matrix.set m i j (levp i j) = Some m' ∧
        inv (λ i' j', known i' j' ∨ (i' = i ∧ j' = j)) m'.
Proof.
  intros (HC & Hlen & Hcells) Hi Hj. unfold Matrix.set.
  rewrite HC, Hlen. rewrite decide_True by nia.
  eexists; split; [done|]. split; [done|]. split.
  { simpl. by rewrite length_insert. }
  intros i' j' Hi' Hj' Hknown. unfold Matrix.at_. cbn [Matrix.buffer Matrix.C].
  destruct (decide (i' = i ∧ j' = j)) as [[-> ->]|Hne].
  - rewrite list_lookup_insert_eq by (rewrite Hlen; nia). done.
  - rewrite list_lookup_insert_ne; last first.
    { intros Heq. apply row_major_inj in Heq as [-> ->]; [tauto|lia..]. }
    destruct Hknown as [Hknown|?]; [|done].
    specialize (Hcells i' j' Hi' Hj' Hknown).
    unfold Matrix.at_ in Hcells. by rewrite HC in Hcells.
Qed.

Lemma table_inv_new : inv (λ _ _, False) (Matrix.new (len1 + 1) (len2 + 1)).
Proof. repeat split; [apply length_replicate|tauto]. Qed.

Hypothesis Hlen1 : len1 ≤ length one.
Hypothesis Hlen2 : len2 ≤ length two.

Lemma cell_step_inv i j m :
  1 ≤ i ≤ len1 → 1 ≤ j ≤ len2 →
  inv (λ i' j', i' < i ∨ (i' = i ∧ j' < j)) m →
  ∃ m', cell_step one two i j m = Some m' ∧
        inv (λ i' j', i' < i ∨ (i' = i ∧ j' < S j)) m'.
Proof.
  intros Hi Hj Hinv. unfold cell_step.
  destruct (lookup_lt_is_Some_2 one (i - 1)) as [x Hx]; [lia|].
  destruct (lookup_lt_is_Some_2 two (j - 1)) as [y Hy]; [lia|].
  rewrite Hx, Hy. simpl.
  pose proof Hinv as (_ & _ & Hcells).
  rewrite (Hcells (i - 1) (j - 1)) by lia.
  assert (Hrec := lev_prefix_S (i - 1) (j - 1) x y Hx Hy).
  replace (S (i - 1)) with i in Hrec by lia.
  replace (S (j - 1)) with j in Hrec by lia.
  destruct (table_inv_set _ m i j Hinv) as (m' & Hset & Hinv'); [lia..|].
  exists m'. split.
  - case_decide; simpl.
    + by rewrite <- Hrec.
    + rewrite (Hcells (i - 1) j), (Hcells i (j - 1)) by lia. simpl.
      by rewrite <- Hrec.
  - eapply table_inv_weaken; [done|]. simpl. intros i' j' _ _ ?. lia.
Qed.

Lemma row_step_inv i m :
  1 ≤ i ≤ len1 →
  inv (λ i' _, i' < i) m →
  ∃ m', row_step one two len2 i m = Some m' ∧ inv (λ i' _, i' < S i) m'.
Proof.
  intros Hi Hinv. unfold row_step.
  destruct (table_inv_set _ m i 0 Hinv) as (m0 & Hset & Hinv0); [lia..|].
  rewrite lev_prefix_0_r in Hset by lia. rewrite Hset. simpl.
  destruct (for_range_inv
    (λ j m, inv (λ i' j', i' < i ∨ (i' = i ∧ j' < j)) m)
    len2 1 (cell_step one two i) m0) as (m' & Hloop & Hinv').
  - eapply table_inv_weaken; [done|]. simpl. intros i' j' _ _ ?. lia.
  - intros j m1 Hj Hinv1. apply cell_step_inv; [lia..|done].
  - exists m'. split; [done|].
    eapply table_inv_weaken; [done|]. simpl. intros i' j' _ ? ?. lia.
Qed.

Lemma dp_table_lev_prefix : dp_table one two len1 len2 = Some (levp len1 len2).
Proof.
  unfold dp_table.
  destruct (table_inv_set _ _ 0 0 table_inv_new) as (m0 & Hset & Hinv0);
    [lia..|].
  rewrite lev_prefix_0_l in Hset by lia. rewrite Hset. simpl.
  destruct (for_range_inv (λ j m, inv (λ i' j', i' = 0 ∧ j' < j) m)
    len2 1 (λ j m, Matrix.set m 0 j j) m0) as (m1 & Hrow0 & Hinv1).
  { eapply table_inv_weaken; [done|]. simpl. intros i' j' _ _ ?. lia. }
  { intros j m Hj Hinv.
    destruct (table_inv_set _ m 0 j Hinv) as (m' & Hset' & Hinv'); [lia..|].
    rewrite lev_prefix_0_l in Hset' by lia. exists m'. split; [done|].
    eapply table_inv_weaken; [done|]. simpl. intros i' j' _ _ ?. lia. }
  rewrite Hrow0. simpl.
  destruct (for_range_inv (λ i m, inv (λ i' _, i' < i) m)
    len1 1 (row_step one two len2) m1) as (m2 & Hrows & Hinv2).
  { eapply table_inv_weaken; [done|]. simpl. intros i' j' _ ? ?. lia. }
  { intros i m Hi Hinv. apply row_step_inv; [lia|done]. }
  rewrite Hrows. simpl.
  destruct Hinv2 as (_ & _ & Hcells). apply Hcells; lia.
Qed.

Lemma strip_suffix_lev_prefix :
  ∃ l1 l2, strip_suffix one two len1 len2 = Some (l1, l2) ∧
           l1 ≤ len1 ∧ l2 ≤ len2 ∧ levp l1 l2 = levp len1 len2.
Proof.
  clear -Hlen1 Hlen2. revert len2 Hlen1 Hlen2.
  induction len1 as [|l1 IH]; intros l2' Hl1 Hl2.
  { exists 0, l2'. by destruct l2'. }
  destruct l2' as [|l2]; [by exists (S l1), 0|]. simpl.
  destruct (lookup_lt_is_Some_2 one l1) as [x Hx]; [lia|].
  destruct (lookup_lt_is_Some_2 two l2) as [y Hy]; [lia|].
  rewrite Hx, Hy. simpl. case_decide as Hxy.
  - destruct (IH l2) as (k1 & k2 & Hstrip & ? & ? & Heq); [lia..|].
    exists k1, k2. repeat split; [done|lia..|].
    rewrite Heq, (lev_prefix_S l1 l2 x y Hx Hy). by rewrite decide_True.
  - by exists (S l1), (S l2).
Qed.

End Table.

(** [slow_edit_distance] never leaves defined behaviour, and returns [lev]. *)
Lemma slow_edit_distance_lev : slow_edit_distance one two = Some (lev one two).
Proof.
  unfold slow_edit_distance.
  destruct (strip_suffix_lev_prefix (length one) (length two))
    as (l1 & l2 & -> & Hl1 & Hl2 & Heq); [done..|].
  simpl. rewrite lev_prefix_full in Heq. rewrite <- Heq.
  repeat case_decide; subst.
  - by rewrite lev_prefix_0_l.
  - by rewrite lev_prefix_0_r.
  - by apply dp_table_lev_prefix.
Qed.

Lemma plain_edit_distance_lev : plain_edit_distance one two = Some (lev one two).
Proof.
  unfold plain_edit_distance. rewrite <- lev_prefix_full.
  repeat case_decide.
  - replace (length one) with 0 by done. by rewrite lev_prefix_0_l.
  - replace (length two) with 0 by done. by rewrite lev_prefix_0_r.
  - by apply dp_table_lev_prefix.
Qed.

Lemma dp_table_full_lev :
  dp_table one two (length one) (length two) = Some (lev one two).
Proof. rewrite <- lev_prefix_full. by apply dp_table_lev_prefix. Qed.

End KernelProofs.

(** ** [string_split] *)

Section Split.
Variable c : ascii.
Implicit Types (s t pre suf : string).

Lemma string_split_loop_eq from current output :
  string_split_loop from c current output =
    match find from c current with
    | Some next =>
        string_split_loop from c (next + 1)
          (output ++ [String.substring current (next - current) from])
    | None =>
        if decide (current ≠ String.length from)
        then output ++ [String.substring current (String.length from - current) from]
        else output
    end.
Proof.
  simp string_split_loop.
  destruct (inspect (find from c current)) as [[next|] Hnext]; simpl;
    by rewrite Hnext.
Qed.

Lemma string_app_nil_l s : "" +:+ s = s.
Proof. reflexivity. Qed.

Lemma string_app_cons a s t : String a s +:+ t = String a (s +:+ t).
Proof. reflexivity. Qed.

Lemma string_app_length s t :
  String.length (s +:+ t) = String.length s + String.length t.
Proof.
  induction s as [|a s IH]; [done|]. rewrite string_app_cons. simpl. by rewrite IH.
Qed.

Lemma string_app_assoc s t u : (s +:+ t) +:+ u = s +:+ (t +:+ u).
Proof.
  induction s as [|a s IH]; [done|]. rewrite !string_app_cons. by rewrite IH.
Qed.

Lemma find_skip pre suf k :
  find (pre +:+ suf) c (String.length pre + k) =
    (λ n, String.length pre + n) <$> find suf c k.
Proof.
  induction pre as [|a pre IH].
  - rewrite string_app_nil_l. simpl. by destruct (find suf c k).
  - rewrite string_app_cons. simpl. rewrite IH. by destruct (find suf c k).
Qed.

Lemma substring_skip pre suf n :
  String.substring (String.length pre) n (pre +:+ suf) = String.substring 0 n suf.
Proof. induction pre as [|a pre IH]; [done|]. rewrite string_app_cons. apply IH. Qed.

Lemma substring_prefix t s :
  String.substring 0 (String.length t) (t +:+ s) = t.
Proof.
  induction t as [|a t IH]; [by destruct s|].
  rewrite string_app_cons. simpl. by rewrite IH.
Qed.

Lemma substring_all s : String.substring 0 (String.length s) s = s.
Proof. induction s as [|a s IH]; simpl; [done|]. by rewrite IH. Qed.

(** No separator: the whole string is one token, unless it is empty. *)
Lemma find_None_tokens s :
  find s c 0 = None → tokens s c = if decide (s = "") then [] else [s].
Proof.
  induction s as [|a s IH]; simpl; [done|].
  destruct (decide (a = c)) as [|Hac]; [done|].
  destruct (find s c 0) eqn:Hfind; [done|]. intros _.
  rewrite IH by done. by case_decide; subst.
Qed.

(** A first separator at [n]: the [n] characters before it are the first
    token, and splitting goes on after it. *)
Lemma find_Some_tokens s n :
  find s c 0 = Some n →
  ∃ t s', s = t +:+ String c s' ∧ String.length t = n ∧
          tokens s c = t :: tokens s' c.
Proof.
  revert n. induction s as [|a s IH]; intros n; simpl; [done|].
  destruct (decide (a = c)) as [->|Hac].
  - intros [= <-]. by exists "", s.
  - destruct (find s c 0) as [k|] eqn:Hfind; [|done]. intros [= <-].
    destruct (IH k eq_refl) as (t & s' & -> & <- & Htok).
    exists (String a t), s'. rewrite Htok. done.
Qed.

Lemma string_split_loop_tokens n :
  ∀ suf pre output, String.length suf ≤ n →
    string_split_loop (pre +:+ suf) c (String.length pre) output =
      output ++ tokens suf c.
Proof.
  induction n as [n IH] using lt_wf_ind. intros suf pre output Hn.
  rewrite string_split_loop_eq.
  rewrite <- (Nat.add_0_r (String.length pre)) at 1. rewrite find_skip.
  destruct (find suf c 0) as [k|] eqn:Hfind; simpl.
  - destruct (find_Some_tokens suf k Hfind) as (t & s' & -> & <- & ->).
    replace (String.length pre + String.length t - String.length pre)
      with (String.length t) by lia.
    rewrite substring_skip, substring_prefix.
    rewrite string_app_length in Hn. simpl in Hn.
    replace (pre +:+ t +:+ String c s')
      with ((pre +:+ t +:+ String c "") +:+ s')
      by (by rewrite !string_app_assoc).
    replace (String.length pre + String.length t + 1)
      with (String.length (pre +:+ t +:+ String c ""))
      by (rewrite !string_app_length; simpl; lia).
    rewrite (IH (String.length s')) by lia.
    by rewrite <- (assoc_L (++)).
  - rewrite (find_None_tokens suf Hfind), string_app_length.
    destruct suf as [|a suf].
    + rewrite decide_False by (simpl; lia). rewrite decide_True by done.
      by rewrite (right_id_L [] (++)).
    + rewrite decide_True by (simpl; lia). rewrite decide_False by done.
      replace (String.length pre + String.length (String a suf) - String.length pre)
        with (String.length (String a suf)) by lia.
      by rewrite substring_skip, substring_all.
Qed.

(** [string_split] is [tokens]. *)
Lemma string_split_tokens s : string_split s c = tokens s c.
Proof.
  unfold string_split.
  apply (string_split_loop_tokens (String.length s) s "" []). done.
Qed.

Lemma segments_nonempty s : segments s c ≠ [].
Proof.
  induction s as [|a s IH]; simpl; [done|].
  case_decide; [done|]. by destruct (segments s c).
Qed.

(** A string that ends with the separator: its tokens are the segments
    before that separator. *)
Lemma tokens_ends_with_sep s : tokens (s +:+ String c "") c = segments s c.
Proof.
  induction s as [|a s IH].
  - simpl. by rewrite decide_True.
  - rewrite string_app_cons. simpl. rewrite IH.
    case_decide; [done|]. pose proof (segments_nonempty s).
    by destruct (segments s c).
Qed.

Lemma segments_ends_with_sep s :
  segments (s +:+ String c "") c = segments s c ++ [""].
Proof.
  induction s as [|a s IH].
  - simpl. by rewrite decide_True.
  - rewrite string_app_cons. simpl. rewrite IH.
    case_decide; [done|]. pose proof (segments_nonempty s).
    by destruct (segments s c).
Qed.

(** A string that ends with another character: every segment is a token. *)
Lemma tokens_ends_with_other s a :
  a ≠ c → tokens (s +:+ String a "") c = segments (s +:+ String a "") c.
Proof.
  intros Hac. induction s as [|b s IH].
  - simpl. by rewrite !decide_False.
  - rewrite string_app_cons. simpl. by rewrite IH.
Qed.

(** Splitting goes on after a separator as it started. *)
Lemma tokens_after_sep s t :
  tokens (s +:+ String c t) c = segments s c ++ tokens t c.
Proof.
  induction s as [|a s IH].
  - simpl. by rewrite decide_True.
  - rewrite string_app_cons. simpl. rewrite IH.
    case_decide; [done|]. pose proof (segments_nonempty s).
    by destruct (segments s c).
Qed.

(** [segments] is a splitting: no segment holds a separator, and joining
    the segments gives the string back. *)
Lemma segments_no_sep s seg : seg ∈ segments s c → ¬ occurs c seg.
Proof.
  revert seg. induction s as [|a s IH]; intros seg; simpl.
  - intros ->%list_elem_of_singleton. tauto.
  - case_decide as Hac.
    + intros [->|Hin]%elem_of_cons; [simpl; tauto|by apply IH].
    + pose proof (segments_nonempty s).
      destruct (segments s c) as [|seg0 segs]; [done|].
      intros [->|Hin]%elem_of_cons.
      * simpl. intros [?|Hocc]; [done|]. by apply (IH seg0); [left|].
      * apply IH. by right.
Qed.

Lemma join_cons seg segs :
  segs ≠ [] → join c (seg :: segs) = seg +:+ String c (join c segs).
Proof. by destruct segs. Qed.

Lemma join_segments s : join c (segments s c) = s.
Proof.
  induction s as [|a s IH]; simpl; [done|].
  pose proof (segments_nonempty s) as Hne.
  case_decide as Hac.
  - subst a. by rewrite join_cons, IH.
  - destruct (segments s c) as [|seg0 segs]; [done|].
    destruct segs as [|seg1 segs]; [by simpl in *; subst|].
    rewrite join_cons in IH by done. rewrite join_cons by done.
    by rewrite string_app_cons, IH.
Qed.

End Split.
(** ** [load] *)

Lemma string_app_nil_r s : s +:+ "" = s.
Proof. induction s as [|a s IH]; [done|]. by rewrite string_app_cons, IH. Qed.

Lemma world_log_nil w : world_log w [] = w.
Proof. destruct w. unfold world_log. simpl. by rewrite (right_id_L [] (++)). Qed.

Lemma world_log_app w msgs msgs' :
  world_log (world_log w msgs) msgs' = world_log w (msgs ++ msgs').
Proof. unfold world_log. simpl. by rewrite (assoc_L (++)). Qed.

Lemma for_range_collect {A B : Type} (f : A → B) (l : list A) n start acc :
  start + n ≤ length l →
  for_range n start (λ i acc, x ← l !! i; Some (acc ++ [f x])) acc =
    Some (acc ++ (f <$> take n (drop start l))).
Proof.
  revert start acc. induction n as [|n IH]; intros start acc Hlen; simpl.
  - by rewrite (right_id_L [] (++)).
  - destruct (lookup_lt_is_Some_2 l start) as [x Hx]; [lia|].
    rewrite Hx. simpl. rewrite IH by lia.
    rewrite (drop_S l x start Hx). simpl.
    by rewrite <- (assoc_L (++)).
Qed.

Lemma split_fields_spec chunks :
  split_fields chunks = Some ((λ chunk, string_split chunk space) <$> drop 1 chunks).
Proof.
  unfold split_fields. destruct chunks as [|chunk0 chunks]; [done|].
  rewrite for_range_collect by (simpl; lia). simpl.
  by rewrite Nat.sub_0_r, drop_0, firstn_all.
Qed.

(** One iteration of the loop of [load], after [std::getline]. *)
Lemma load_line_spec line st w :
  load_line line st w =
    Done (if decide (line = "") then st
          else if decide (accepts (load_state.num_fields st) line)
               then emplace_line (length (load_state.buffer st), record_of line)
                      (Z.of_nat (chunk_count line - 1)) (emplace_back line st)
               else emplace_back line st)
         (world_log w
            (if decide (line ≠ "" ∧ ¬ accepts (load_state.num_fields st) line)
             then [malformed line] else [])).
Proof.
  unfold load_line, accepts, well_formed, chunk_count.
  destruct (decide (line = "")) as [->|Hline].
  { rewrite decide_False by tauto. by rewrite world_log_nil. }
  cbn [emplace_back load_state.num_fields].
  set (nf := load_state.num_fields st).
  destruct (decide (length (string_split line tab) ≤ 1)) as [Hshort|Hlong].
  { rewrite decide_False by lia. by rewrite decide_True by (split; [done|lia]). }
  assert (Hrec : ∃ chunk0, string_split line tab !! 0 = Some chunk0 ∧
                 record_of line = {| Line.id := chunk0;
                   Line.fields := (λ chunk, string_split chunk space) <$>
                                  drop 1 (string_split line tab) |}).
  { unfold record_of. destruct (string_split line tab) as [|chunk0 chunks] eqn:Hch;
      [simpl in Hlong; lia|]. by exists chunk0. }
  destruct Hrec as (chunk0 & Hchunk0 & Hrec).
  unfold mbind, prog_bind at 1. rewrite Hchunk0. simpl.
  destruct (decide (nf < 0)%Z) as [Hneg|Hpos].
  { rewrite decide_True by (split; [lia|by left]).
    rewrite decide_False by (intros [_ []]; split; [lia|by left]).
    rewrite split_fields_spec. unfold mbind, prog_bind. simpl.
    by rewrite Hrec, world_log_nil. }
  destruct (decide (Z.of_nat (length (string_split line tab) - 1) ≠ nf)) as [Hne|Heq].
  { rewrite decide_False by (intros [_ [?|?]]; [lia|done]).
    by rewrite decide_True by (split; [done|]; intros [_ [?|?]]; [lia|done]). }
  apply dec_stable in Heq.
  rewrite decide_True by (split; [lia|by right]).
  rewrite decide_False by (intros [_ []]; split; [lia|by right]).
  rewrite split_fields_spec. unfold mbind, prog_bind. simpl.
  by rewrite Hrec, world_log_nil, Heq.
Qed.

Lemma load_line_blank st w : load_line "" st w = Done st w.
Proof. unfold load_line. by rewrite decide_True. Qed.

Lemma accepts_kept (nf : nat) line : accepts (Z.of_nat nf) line ↔ kept nf line.
Proof. unfold accepts, kept. split; intros [? ?]; (split; [done|lia]). Qed.

Lemma kept_not_empty nf : ¬ kept nf "".
Proof.
  unfold kept, well_formed, chunk_count. rewrite string_split_tokens. simpl. lia.
Qed.

Lemma well_formed_not_empty line : well_formed line → line ≠ "".
Proof. intros Hwf ->. unfold well_formed in Hwf. vm_compute in Hwf. lia. Qed.

Lemma entries_app (keep : string → Prop) `{!∀ l, Decision (keep l)} ls ls' :
  ∀ slot,
    entries keep slot (ls ++ ls') =
      entries keep slot ls ++
      entries keep (slot + length (filter (λ l, l ≠ "") ls)) ls'.
Proof.
  induction ls as [|l ls IH]; intros slot; [cbn; by rewrite Nat.add_0_r|].
  cbn [app entries]. rewrite filter_cons. destruct (decide (l = "")) as [->|Hl].
  - rewrite (decide_False (P := "" ≠ "")) by tauto. apply IH.
  - rewrite (decide_True (P := l ≠ "")) by done.
    rewrite IH, <- (assoc_L (++)). cbn [length].
    by rewrite Nat.add_succ_r.
Qed.

Lemma grown_add size v count count' :
  grown size v (count + count') = grown (size + count) (grown size v count) count'.
Proof.
  revert size v. induction count as [|count IH]; intros size v; cbn [grown Nat.add].
  - by rewrite Nat.add_0_r.
  - by rewrite IH, Nat.add_succ_r.
Qed.

Lemma field_count_cons_True line ls :
  well_formed line → field_count (line :: ls) = Some (chunk_count line - 1).
Proof. intros Hwf. unfold field_count. simpl. by rewrite decide_True. Qed.

Lemma field_count_cons_False line ls :
  ¬ well_formed line → field_count (line :: ls) = field_count ls.
Proof.
  intros Hwf. unfold field_count. simpl. rewrite decide_False by done.
  by destruct (list_find well_formed ls) as [[k found]|].
Qed.

Lemma load_lines_cons line ls st w :
  load_lines (line :: ls) st w =
    match load_line line st w with
    | Done st' w' => load_lines ls st' w'
    | Crash f w' => Crash f w'
    | Out_of_fuel => Out_of_fuel
    end.
Proof. reflexivity. Qed.

(** Once the field count is fixed, [load] keeps the lines that have it. *)
Lemma load_lines_fixed (nf : nat) ls :
  ∀ st w, load_state.num_fields st = Z.of_nat nf →
    ∃ st',
      load_lines ls st w =
        Done st' (world_log w (malformed <$> filter (λ l, l ≠ "" ∧ ¬ kept nf l) ls)) ∧
      load_state.buffer st' = load_state.buffer st ++ filter (λ l, l ≠ "") ls ∧
      load_state.lines st' =
        load_state.lines st ++ entries (kept nf) (length (load_state.buffer st)) ls ∧
      load_state.num_fields st' = Z.of_nat nf ∧
      (load_state.capacity st', load_state.relocated st') =
        grown (length (load_state.buffer st))
          (load_state.capacity st, load_state.relocated st)
          (length (filter (λ l, l ≠ "") ls)).
Proof.
  induction ls as [|line ls IH]; intros st w Hnf.
  { exists st. cbn. by rewrite world_log_nil, !(right_id_L [] (++)). }
  rewrite load_lines_cons, load_line_spec, Hnf.
  pose proof (accepts_kept nf line) as Hacc.
  pose proof (kept_not_empty nf) as Hempty.
  rewrite !filter_cons. cbn [entries].
  assert (Hgrow : ∀ count,
            grown (length (load_state.buffer st ++ [line]))
              (load_state.capacity (emplace_back line st),
               load_state.relocated (emplace_back line st)) count =
            grown (length (load_state.buffer st))
              (load_state.capacity st, load_state.relocated st) (S count)).
  { intros count. rewrite length_app, Nat.add_1_r. cbn [grown length emplace_back
      load_state.capacity load_state.relocated]. unfold grow. cbn [fst snd].
    by destruct (decide (length (load_state.buffer st) = load_state.capacity st));
      [rewrite bool_decide_true by done|rewrite bool_decide_false by done]. }
  destruct (decide (line = "")) as [->|Hline].
  - destruct (IH st (world_log w []) Hnf) as (st' & Hrun & Hrest).
    exists st'. repeat case_decide; try (exfalso; tauto).
    by rewrite Hrun, world_log_app.
  - destruct (decide (kept nf line)) as [Hkept|Hkept].
    + destruct (IH (emplace_line (length (load_state.buffer st), record_of line)
                      (Z.of_nat (chunk_count line - 1)) (emplace_back line st))
                   (world_log w [])) as (st' & Hrun & Hbuf & Hlines & Hcount & Hcap).
      { cbn. destruct Hkept as [_ ->]. done. }
      exists st'. repeat case_decide; try (exfalso; tauto).
      rewrite Hrun, world_log_app. split; [done|].
      cbn [emplace_line load_state.buffer load_state.lines load_state.capacity
           load_state.relocated] in Hbuf, Hlines, Hcap.
      rewrite Hgrow in Hcap. cbn [emplace_back load_state.buffer load_state.lines]
        in Hbuf, Hlines. rewrite length_app, Nat.add_1_r in Hlines.
      rewrite Hbuf, Hlines, <- !(assoc_L (++)). done.
    + destruct (IH (emplace_back line st) (world_log w [malformed line]))
        as (st' & Hrun & Hbuf & Hlines & Hcount & Hcap); [done|].
      exists st'. repeat case_decide; try (exfalso; tauto).
      rewrite Hrun, world_log_app. split; [done|].
      rewrite Hgrow in Hcap. cbn [emplace_back load_state.buffer load_state.lines]
        in Hbuf, Hlines. rewrite length_app, Nat.add_1_r in Hlines.
      rewrite Hbuf, Hlines, <- !(assoc_L (++)). done.
Qed.

(** Before the field count is fixed, the first well-formed line fixes it. *)
Lemma load_lines_initial ls :
  ∀ st w, (load_state.num_fields st < 0)%Z →
    let nf := default 0 (field_count ls) in
    ∃ st',
      load_lines ls st w =
        Done st' (world_log w (malformed <$> filter (λ l, l ≠ "" ∧ ¬ kept nf l) ls)) ∧
      load_state.buffer st' = load_state.buffer st ++ filter (λ l, l ≠ "") ls ∧
      load_state.lines st' =
        load_state.lines st ++ entries (kept nf) (length (load_state.buffer st)) ls ∧
      (load_state.capacity st', load_state.relocated st') =
        grown (length (load_state.buffer st))
          (load_state.capacity st, load_state.relocated st)
          (length (filter (λ l, l ≠ "") ls)).
Proof.
  induction ls as [|line ls IH]; intros st w Hnf.
  { exists st. cbn. by rewrite world_log_nil, !(right_id_L [] (++)). }
  intros nf. rewrite load_lines_cons, load_line_spec.
  assert (Hacc : accepts (load_state.num_fields st) line ↔ well_formed line).
  { unfold accepts. split; [by intros [? _]|]. intros ?. split; [done|by left]. }
  pose proof (well_formed_not_empty line) as Hempty.
  rewrite !filter_cons. cbn [entries].
  assert (Hgrow : ∀ count,
            grown (length (load_state.buffer st ++ [line]))
              (load_state.capacity (emplace_back line st),
               load_state.relocated (emplace_back line st)) count =
            grown (length (load_state.buffer st))
              (load_state.capacity st, load_state.relocated st) (S count)).
  { intros count. rewrite length_app, Nat.add_1_r. cbn [grown length emplace_back
      load_state.capacity load_state.relocated]. unfold grow. cbn [fst snd].
    by destruct (decide (length (load_state.buffer st) = load_state.capacity st));
      [rewrite bool_decide_true by done|rewrite bool_decide_false by done]. }
  destruct (decide (well_formed line)) as [Hwf|Hwf].
  - unfold nf. rewrite (field_count_cons_True line ls Hwf). cbn [default].
    assert (Hkept : kept (chunk_count line - 1) line) by done.
    destruct (load_lines_fixed (chunk_count line - 1) ls
                (emplace_line (length (load_state.buffer st), record_of line)
                   (Z.of_nat (chunk_count line - 1)) (emplace_back line st))
                (world_log w [])) as (st' & Hrun & Hbuf & Hlines & Hcount & Hcap);
      [done|].
    exists st'. specialize (Hempty Hwf). repeat case_decide; try (exfalso; tauto).
    rewrite Hrun, world_log_app. split; [done|].
    cbn [emplace_line load_state.buffer load_state.lines load_state.capacity
         load_state.relocated] in Hbuf, Hlines, Hcap.
    rewrite Hgrow in Hcap. cbn [emplace_back load_state.buffer load_state.lines]
      in Hbuf, Hlines. rewrite length_app, Nat.add_1_r in Hlines.
    rewrite Hbuf, Hlines, <- !(assoc_L (++)). done.
  - unfold nf. rewrite (field_count_cons_False line ls Hwf).
    assert (Hkept : ¬ kept (default 0 (field_count ls)) line) by (by intros [? _]).
    destruct (decide (line = "")) as [->|Hline].
    + destruct (IH st (world_log w []) Hnf) as (st' & Hrun & Hrest).
      exists st'. repeat case_decide; try (exfalso; tauto).
      by rewrite Hrun, world_log_app.
    + destruct (IH (emplace_back line st) (world_log w [malformed line]))
        as (st' & Hrun & Hbuf & Hlines & Hcap); [done|].
      exists st'. repeat case_decide; try (exfalso; tauto).
      rewrite Hrun, world_log_app. split; [done|].
      rewrite Hgrow in Hcap. cbn [emplace_back load_state.buffer load_state.lines]
        in Hbuf, Hlines. rewrite length_app, Nat.add_1_r in Hlines.
      rewrite Hbuf, Hlines, <- !(assoc_L (++)). done.
Qed.

Lemma take_line_Some s l r :
  take_line s = (l, Some r) →
  segments s newline = l :: segments r newline ∧ String.length r < String.length s.
Proof.
  revert l. induction s as [|a s IH]; intros l; simpl; [done|].
  case_decide.
  - intros [= <- <-]. split; [done|lia].
  - destruct (take_line s) as [l' r'] eqn:Htake. intros [= <- ->].
    destruct (IH l' eq_refl) as [-> ?]. split; [done|lia].
Qed.

Lemma take_line_None s l : take_line s = (l, None) → segments s newline = [l].
Proof.
  revert l. induction s as [|a s IH]; intros l; simpl.
  - by intros [= <-].
  - case_decide; [done|].
    destruct (take_line s) as [l' r'] eqn:Htake. intros [= <- ->].
    by rewrite (IH l' eq_refl).
Qed.

(** On a file that was opened, the loop of [load] ends, having run its body
    on every line of the file. *)
Lemma load_loop_opened n :
  ∀ content fuel st w,
    String.length content ≤ n → String.length content + 1 < fuel →
    load_loop fuel
      {| ifstream.rest := content; ifstream.eofbit := false;
         ifstream.failbit := false |} "" st w =
      load_lines (file_lines content) st w.
Proof.
  unfold file_lines.
  induction n as [n IH] using lt_wf_ind. intros content fuel st w Hn Hfuel.
  destruct fuel as [|fuel]; [lia|]. simpl. unfold getline. simpl.
  destruct (take_line content) as [l [r|]] eqn:Htake.
  - destruct (take_line_Some _ _ _ Htake) as [-> Hlen].
    rewrite load_lines_cons. unfold mbind, prog_bind.
    destruct (load_line l st w) as [st' w'| |]; [|done..].
    replace (if decide (l = "") then l else "") with "" by (by case_decide).
    apply (IH (String.length r)); lia.
  - rewrite (take_line_None _ _ Htake), load_lines_cons.
    unfold mbind, prog_bind.
    destruct (load_line l st w) as [st' w'| |]; [|done..].
    destruct fuel as [|fuel]; [lia|]. done.
Qed.

(** On a file that could not be opened, the loop of [load] never ends:
    [eofbit] is never set. *)
Lemma load_loop_failed fuel rest st w :
  load_loop fuel
    {| ifstream.rest := rest; ifstream.eofbit := false; ifstream.failbit := true |}
    "" st w = Out_of_fuel.
Proof.
  induction fuel as [|fuel IH]; [done|].
  cbn [load_loop ifstream.eofbit]. unfold getline. cbn.
  unfold mbind, prog_bind. rewrite load_line_blank. apply IH.
Qed.

Lemma load_loop_fuel_mono fuel :
  ∀ fuel' fp line st w st' w',
    load_loop fuel fp line st w = Done st' w' → fuel ≤ fuel' →
    load_loop fuel' fp line st w = Done st' w'.
Proof.
  induction fuel as [|fuel IH]; intros fuel' fp line st w st' w' Hdone Hle; [done|].
  destruct fuel' as [|fuel']; [lia|]. simpl in *.
  destruct (ifstream.eofbit fp); [done|].
  destruct (getline fp line) as [fp' line'].
  unfold mbind, prog_bind in *.
  destruct (load_line line' st w) as [st1 w1| |]; [|done..].
  apply (IH fuel'); [done|lia].
Qed.

(** ** The storage of [buffer] *)

Lemma entries_not_blank (keep : string → Prop) `{!∀ l, Decision (keep l)} ls :
  ∀ slot, entries keep slot (filter (λ l, l ≠ "") ls) = entries keep slot ls.
Proof.
  induction ls as [|l ls IH]; intros slot; [done|].
  rewrite filter_cons. cbn [entries]. destruct (decide (l = "")) as [->|Hl].
  - rewrite (decide_False (P := "" ≠ "")) by tauto. apply IH.
  - rewrite (decide_True (P := l ≠ "")) by done. cbn [entries].
    rewrite decide_False by done. by rewrite IH.
Qed.

(** The slots of the entries are slots of the lines they are made of. *)
Lemma entries_lookup (keep : string → Prop) `{!∀ l, Decision (keep l)} ls :
  ∀ slot k r,
    (k, r) ∈ entries keep slot ls →
    ∃ line, filter (λ l, l ≠ "") ls !! (k - slot) = Some line ∧ slot ≤ k ∧
            keep line ∧ r = record_of line.
Proof.
  induction ls as [|l ls IH]; intros slot k r; cbn [entries].
  { by intros ?%elem_of_nil. }
  rewrite filter_cons. destruct (decide (l = "")) as [->|Hl].
  - rewrite (decide_False (P := "" ≠ "")) by tauto. apply IH.
  - rewrite (decide_True (P := l ≠ "")) by done.
    intros [Hhere|Hlater]%elem_of_app.
    + case_decide; [|by apply elem_of_nil in Hhere].
      apply list_elem_of_singleton in Hhere as [= -> ->].
      exists l. by rewrite Nat.sub_diag.
    + destruct (IH _ _ _ Hlater) as (line & Hline & Hle & Hkeep & ->).
      exists line. replace (k - slot) with (S (k - S slot)) by lia.
      split; [done|]. split; [lia|done].
Qed.

Lemma grown_relocated count :
  ∀ size v, v.2 ≤ size → (grown size v count).2 ≤ size + count ∧
            (0 < count → v.2 < size + count → (grown size v count).2 < size + count).
Proof.
  induction count as [|count IH]; intros size v Hv; cbn [grown].
  { split; lia. }
  assert (Hgrow : (grow size v).2 ≤ S size)
    by (unfold grow; case_decide; cbn; lia).
  destruct (IH (S size) (grow size v) Hgrow) as [Hle Hlt]. split; [lia|].
  intros _ _. destruct count as [|count].
  - cbn [grown]. unfold grow. case_decide; cbn; lia.
  - assert ((grow size v).2 < S size + S count)
      by (unfold grow; case_decide; cbn; lia).
    specialize (Hlt ltac:(lia) ltac:(lia)). lia.
Qed.

(** The string stored last has not been moved. *)
Lemma relocated_of_lt n : 0 < n → relocated_of n < n.
Proof.
  intros Hn. unfold relocated_of.
  destruct (grown_relocated n 0 (0, 0)) as [_ Hlt]; [cbn; lia|].
  apply Hlt; cbn; lia.
Qed.

Lemma reread_length g pos len : String.length (reread g pos len) = len.
Proof.
  unfold reread. generalize (g <$> seq pos len) (length_fmap g (seq pos len)).
  rewrite length_seq. intros l <-. induction l as [|a l IH]; [done|].
  cbn. by rewrite IH.
Qed.

Lemma reread_views_shape g views :
  ∀ pos, Forall2 (λ tok tok', String.length tok = String.length tok')
           (reread_views g pos views) views.
Proof.
  induction views as [|view views IH]; intros pos; cbn; constructor;
    [apply reread_length|apply IH].
Qed.

Lemma reread_fields_shape g chunks :
  ∀ pos, Forall2 (Forall2 (λ tok tok', String.length tok = String.length tok'))
           (reread_fields g pos chunks)
           ((λ chunk, string_split chunk space) <$> chunks).
Proof.
  induction chunks as [|chunk chunks IH]; intros pos; cbn; constructor;
    [apply reread_views_shape|apply IH].
Qed.

(** Views keep their lengths, and records their numbers of fields and of
    tokens, whatever the storage holds. *)
Lemma stale_record_shape g line :
  well_formed line → same_shape (stale_record g line) (record_of line).
Proof.
  unfold well_formed, chunk_count, stale_record, record_of, same_shape.
  destruct (string_split line tab) as [|id chunks]; [cbn; lia|]. intros _.
  cbn. split; [apply reread_length|apply reread_fields_shape].
Qed.

Lemma same_shape_fields r r' :
  same_shape r r' → length (Line.fields r) = length (Line.fields r').
Proof. intros [_ Hfields]. by eapply Forall2_length. Qed.

Lemma same_shape_refl r : same_shape r r.
Proof.
  split; [done|]. apply Forall_Forall2_diag, Forall_forall. intros field _.
  by apply Forall_Forall2_diag, Forall_forall.
Qed.

Lemma kept_record_fields nf line : kept nf line → length (Line.fields (record_of line)) = nf.
Proof.
  intros [_ <-]. unfold record_of, chunk_count. simpl.
  by rewrite length_fmap, length_drop.
Qed.

(** *** Views whose storage still holds the line *)









Lemma filter_not_blank (ls : list string) :
  "" ∉ ls → filter (λ l, l ≠ "") ls = ls.
Proof.
  induction ls as [|l ls IH]; [done|]. intros Hnot.
  rewrite filter_cons, decide_True, IH; [done|..].
  - intros Hin. apply Hnot. by right.
  - intros ->. apply Hnot. by left.
Qed.

Lemma not_blank_filter (ls : list string) : "" ∉ filter (λ l, l ≠ "") ls.
Proof. by intros [? _]%list_elem_of_filter. Qed.

Section Store.
Context {heap : Heap}.

(** Each record of the store is read through the views into one buffered
    line, which has [nf] fields. *)
Lemma store_of_elem nf buffer r :
  "" ∉ buffer → r ∈ store_of nf buffer →
  ∃ slot line,
    buffer !! slot = Some line ∧ kept nf line ∧
    r = read_back buffer (relocated_of (length buffer)) (slot, record_of line).
Proof.
  unfold store_of. intros Hblank ([slot r0] & -> & Hin)%list_elem_of_fmap.
  destruct (entries_lookup _ _ _ _ _ Hin) as (line & Hline & _ & Hkept & ->).
  exists slot, line. by rewrite Nat.sub_0_r, filter_not_blank in Hline.
Qed.

(** A record read back has the shape it was made with. *)
Lemma read_back_shape buffer relocated slot line :
  buffer !! slot = Some line → well_formed line →
  same_shape (read_back buffer relocated (slot, record_of line)) (record_of line).
Proof.
  intros Hline Hwf. unfold read_back. cbn [fst snd]. rewrite Hline.
  case_decide; [by apply stale_record_shape|apply same_shape_refl].
Qed.

(** A record whose line is longer than [local_capacity], or was not moved
    after its views were made, reads as it was made. *)
Lemma read_back_intact buffer relocated slot line :
  buffer !! slot = Some line →
  local_capacity < String.length line ∨ relocated ≤ slot →
  read_back buffer relocated (slot, record_of line) = record_of line.
Proof.
  intros Hline Hvalid. unfold read_back. cbn [fst snd]. rewrite Hline.
  rewrite decide_False; [done|]. unfold dangling. lia.
Qed.

Lemma load_opened fuel filename content w :
  files w !! filename = Some content →
  String.length content + 1 < fuel →
  let ls := file_lines content in
  let nf := default 0 (field_count ls) in
  let buffer := filter (λ l, l ≠ "") ls in
  load fuel filename w =
    Done (buffer, store_of nf buffer)
         (world_log w (malformed <$> filter (λ l, l ≠ "" ∧ ¬ kept nf l) ls)).
Proof.
  intros Hfile Hfuel ls nf buffer. unfold load, mbind, prog_bind, ifstream.open.
  rewrite Hfile.
  rewrite (load_loop_opened (String.length content)) by done.
  destruct (load_lines_initial (file_lines content)
              {| load_state.buffer := []; load_state.capacity := 0;
                 load_state.relocated := 0; load_state.lines := [];
                 load_state.num_fields := (-1)%Z |} w)
    as (st' & -> & Hbuf & Hlines & Hcap); [done|].
  cbn in Hbuf, Hlines, Hcap. cbn [mret prog_ret]. fold ls nf in Hbuf, Hlines, Hcap |- *.
  fold buffer in Hbuf, Hcap. rewrite Hbuf. unfold store_of, relocated_of.
  rewrite <- Hcap. cbn [snd]. rewrite Hlines.
  by rewrite (entries_not_blank (kept nf) ls 0).
Qed.

Lemma load_failed fuel filename w :
  files w !! filename = None → load fuel filename w = Out_of_fuel.
Proof.
  intros Hfile. unfold load, mbind, prog_bind, ifstream.open.
  by rewrite Hfile, load_loop_failed.
Qed.

(** Whenever [load] returns, its input was opened, and the result is the one
    of [load_opened]. *)
Lemma load_returned fuel filename w buffer lines w' :
  load fuel filename w = Done (buffer, lines) w' →
  ∃ content,
    files w !! filename = Some content ∧
    let ls := file_lines content in
    let nf := default 0 (field_count ls) in
    buffer = filter (λ l, l ≠ "") ls ∧
    lines = store_of nf buffer ∧
    w' = world_log w (malformed <$> filter (λ l, l ≠ "" ∧ ¬ kept nf l) ls).
Proof.
  intros Hload. destruct (files w !! filename) as [content|] eqn:Hfile.
  - assert (Hbig : load (fuel + String.length content + 2) filename w =
                   Done (buffer, lines) w').
    { revert Hload. unfold load, mbind, prog_bind, ifstream.open. rewrite Hfile.
      destruct (load_loop fuel _ _ _ w) as [st1 w1| |] eqn:Hloop; [|done..].
      by rewrite (load_loop_fuel_mono _ _ _ _ _ _ _ _ Hloop) by lia. }
    rewrite (load_opened _ _ _ _ Hfile) in Hbig by lia.
    injection Hbig as <- <- <-. by exists content.
  - by rewrite load_failed in Hload.
Qed.

(** All records of a loaded store have the same number of fields. *)
Lemma load_same_field_count fuel filename w buffer lines w' :
  load fuel filename w = Done (buffer, lines) w' →
  ∃ nf, ∀ r, r ∈ lines → length (Line.fields r) = nf.
Proof.
  intros Hload.
  destruct (load_returned _ _ _ _ _ _ Hload) as (content & _ & -> & -> & _).
  eexists. intros r Hr.
  apply store_of_elem in Hr as (slot & line & Hline & Hkept & ->);
    [|apply not_blank_filter].
  rewrite (same_shape_fields _ (record_of line))
    by (apply read_back_shape; [done|by destruct Hkept]).
  by apply kept_record_fields.
Qed.

End Store.

(** ** The pairs [run] enumerates *)



Lemma pairs_from_length n k start :
  start + k = n →
  2 * length (i ← seq start k; j ← seq (i + 1) (n - (i + 1)); [(i, j)]) = k * (k - 1).
Proof.
  revert start. induction k as [|k IH]; intros start Hn; [done|].
  cbn [seq mbind list_bind]. rewrite length_app.
  specialize (IH (S start) ltac:(lia)). cbn [mbind] in IH.
  assert (Hrow : ∀ m, length (seq (start + 1) m ≫= λ j, [(start, j)]) = m).
  { intros m. generalize (start + 1). induction m as [|m IHm]; intros s; [done|].
    cbn [seq mbind list_bind]. rewrite length_app. cbn [mbind] in IHm.
    rewrite IHm. done. }
  cbn [mbind] in Hrow. rewrite Hrow. nia.
Qed.

Lemma all_pairs_length n : length (all_pairs n) = n * (n - 1) / 2.
Proof.
  pose proof (pairs_from_length n n 0 eq_refl) as Hlen.
  fold (all_pairs n) in Hlen. rewrite <- Hlen.
  by rewrite Nat.mul_comm, Nat.div_mul.
Qed.

(** ** The nested loops of [run] *)





(** ** [process] *)

Lemma process_eds_from (one two : Line.t) n start eds :
  start + n ≤ length (Line.fields one) →
  start + n ≤ length (Line.fields two) →
  for_range n start
    (λ field eds,
       a ← Line.fields one !! field;
       b ← Line.fields two !! field;
       ed ← slow_edit_distance a b;
       Some (eds ++ [ed])) eds =
    Some (eds ++ zip_with lev (take n (drop start (Line.fields one)))
                              (take n (drop start (Line.fields two)))).
Proof.
  revert start eds. induction n as [|n IH]; intros start eds H1 H2.
  { rewrite !take_0. cbn. by rewrite (right_id_L [] (++)). }
  destruct (lookup_lt_is_Some_2 (Line.fields one) start) as [a Ha]; [lia|].
  destruct (lookup_lt_is_Some_2 (Line.fields two) start) as [b Hb]; [lia|].
  cbn [for_range]. cbn beta. rewrite Ha, Hb. cbn [mbind option_bind].
  rewrite slow_edit_distance_lev. cbn [mbind option_bind].
  rewrite IH by lia.
  rewrite (drop_S _ a start Ha), (drop_S _ b start Hb).
  cbn [take zip_with]. by rewrite <- (assoc_L (++)).
Qed.

(** The distances of a pair: [slow_edit_distance], field by field. *)
Lemma process_eds_spec (one two : Line.t) :
  length (Line.fields one) = length (Line.fields two) →
  process_eds one two = Some (zip_with lev (Line.fields one) (Line.fields two)).
Proof.
  intros Hlen. unfold process_eds.
  rewrite process_eds_from by lia.
  by rewrite !drop_0, firstn_all, Hlen, firstn_all.
Qed.

(** ** Writing a result *)

Lemma string_concat_app ss ts :
  string_concat (ss ++ ts) = string_concat ss +:+ string_concat ts.
Proof.
  induction ss as [|s ss IH]; [done|]. cbn [app string_concat].
  by rewrite IH, string_app_assoc.
Qed.

Lemma file_append_nil path w : file_append path "" w = w.
Proof.
  destruct w as [fs uw ce]. unfold file_append. cbn. f_equal.
  apply alter_id. intros data _. apply string_app_nil_r.
Qed.

Lemma file_append_append path s t w :
  file_append path t (file_append path s w) = file_append path (s +:+ t) w.
Proof.
  unfold file_append. cbn. f_equal. rewrite alter_alter_eq.
  apply alter_ext. intros data _. cbn. apply string_app_assoc.
Qed.

Lemma written_nil fout w : written fout "" w = w.
Proof. unfold written. destruct (ofstream.is_open fout); [apply file_append_nil|done]. Qed.

Lemma written_written fout s t w :
  written fout t (written fout s w) = written fout (s +:+ t) w.
Proof.
  unfold written. destruct (ofstream.is_open fout); [apply file_append_append|done].
Qed.

Lemma prog_bind_eq {A B : Type} (m : prog A) (k : A → prog B) w :
  (m ≫= k) w =
    match m w with
    | Done a w' => k a w'
    | Crash f w' => Crash f w'
    | Out_of_fuel => Out_of_fuel
    end.
Proof. reflexivity. Qed.

Lemma put_spec fout s w : ofstream.put fout s w = Done () (written fout s w).
Proof. unfold ofstream.put, written. by destruct (ofstream.is_open fout). Qed.

Lemma put_eds_spec fout eds w :
  for_each eds (λ ed, ofstream.put fout (String tab "");;
                      ofstream.put fout (decimal ed)) w =
    Done () (written fout (string_concat (ed ← eds; [String tab ""; decimal ed])) w).
Proof.
  revert w. induction eds as [|ed eds IH]; intros w.
  { cbn. by rewrite written_nil. }
  cbn [for_each mbind list_bind]. unfold mbind, prog_bind.
  rewrite !put_spec, IH, !written_written. cbn [app string_concat]. done.
Qed.

Lemma write_result_spec fout one two eds w :
  write_result fout one two eds w =
    Done () (written fout (result_line one two eds) w).
Proof.
  unfold write_result.
  do 3 (rewrite prog_bind_eq, put_spec).
  rewrite prog_bind_eq, put_eds_spec, put_spec, !written_written.
  unfold result_line, result_pieces.
  rewrite !string_concat_app. cbn [string_concat].
  by rewrite !string_app_assoc, !string_app_nil_r.
Qed.

(** ** The progress bar *)

Lemma Progbar_print_ok bar w :
  Progbar.total bar ≠ 0%Z → Progbar.print bar w = Done () w.
Proof. intros Htotal. unfold Progbar.print. by repeat case_decide. Qed.

(** Built with a total of zero, the bar divides by zero at once. *)
Lemma Progbar_new_zero w : Progbar.new 0 w = Crash Division_by_zero w.
Proof. reflexivity. Qed.


(** [inc] never divides by zero: with a total of zero it returns early. *)
Lemma Progbar_inc_ok bar w :
  (0 ≤ Progbar.current bar)%Z →
  ∃ bar', Progbar.inc bar w = Done bar' w ∧
          (0 ≤ Progbar.current bar')%Z ∧ Progbar.total bar' = Progbar.total bar.
Proof.
  intros Hcur. unfold Progbar.inc. case_decide as Hdone.
  - by exists bar.
  - eexists. unfold mbind, prog_bind.
    rewrite Progbar_print_ok by (cbn; lia).
    split; [done|]. split; [|done]. cbn. unfold size_t_wrap, size_t_mod.
    apply Z.mod_pos_bound. lia.
Qed.

(** ** [process], and all of them *)


Lemma pair_line_spec nf lines i j one two :
  uniform nf lines → lines !! i = Some one → lines !! j = Some two →
  pair_line lines (i, j) =
    result_line one two (zip_with lev (Line.fields one) (Line.fields two)).
Proof.
  intros Huni Hi Hj. unfold pair_line, pair_result. cbn [fst snd].
  rewrite Hi, Hj. cbn [mbind option_bind].
  rewrite process_eds_spec; [done|].
  rewrite (Huni one), (Huni two); [done|by eapply list_elem_of_lookup_2..].
Qed.


(** ** The lines written under [output_lock] *)

Module SinkFacts.
Import Sink.







Lemma todo_all_nil (ths : list thread) :
  (∀ th, th ∈ ths → todo th = []) → ths ≫= todo = [].
Proof.
  induction ths as [|th ths IH]; intros Hnil; [done|].
  rewrite bind_cons, (Hnil th) by left. apply IH. intros th' Hin. apply Hnil. by right.
Qed.

(** At the end the stream holds every line once, whole, in some order. *)
Lemma inv_finished all s :
  inv all s → finished s →
  ∃ done, done ≡ₚ all ∧ out s = string_concat done ∧ progress s = length done.
Proof.
  intros (done & Hperm & Hprog & Hcons) Hfin. exists done.
  assert (Htodo : threads s ≫= todo = []).
  { apply todo_all_nil. intros th Hin.
    by destruct (proj1 (Forall_forall _ _) Hfin th Hin). }
  rewrite Htodo, (right_id_L [] (++)) in Hperm. split; [done|]. split; [|done].
  unfold consistent in Hcons. destruct (locked s); [|by destruct Hcons].
  destruct Hcons as (t & td & line & pre & rest & Ht & _).
  by destruct (proj1 (Forall_forall _ _) Hfin _ (list_elem_of_lookup_2 _ _ _ Ht)).
Qed.














End SinkFacts.

(** ** The whole of [run] *)

Lemma progbar_total_small n : n ≤ 1 → progbar_total n = 0%Z.
Proof.
  intros Hn. assert (n = 0 ∨ n = 1) as [-> | ->] by lia; reflexivity.
Qed.

Lemma all_pairs_small n : n ≤ 1 → all_pairs n = [].
Proof.
  intros Hn. assert (n = 0 ∨ n = 1) as [-> | ->] by lia; reflexivity.
Qed.

Section RunTotal.
Context {heap : Heap}.

Lemma run_eq fuel filename_in filename_out w :
  run fuel filename_in filename_out w =
    match load fuel filename_in w with
    | Done loaded w1 =>
        match ofstream.open filename_out w1 with
        | Done fout w2 =>
            match Progbar.new (progbar_total (length loaded.2)) w2 with
            | Done progbar w3 =>
                match run_pairs fout loaded.2 progbar w3 with
                | Done _ w4 => Done () w4
                | Crash f w4 => Crash f w4
                | Out_of_fuel => Out_of_fuel
                end
            | Crash f w3 => Crash f w3
            | Out_of_fuel => Out_of_fuel
            end
        | Crash f w2 => Crash f w2
        | Out_of_fuel => Out_of_fuel
        end
    | Crash f w1 => Crash f w1
    | Out_of_fuel => Out_of_fuel
    end.
Proof.
  unfold run. rewrite prog_bind_eq.
  destruct (load fuel filename_in w) as [loaded w1| |]; [|done..].
  rewrite prog_bind_eq.
  destruct (ofstream.open filename_out w1) as [fout w2| |]; [|done..].
  rewrite prog_bind_eq.
  destruct (Progbar.new _ w2) as [progbar w3| |]; [|done..].
  rewrite prog_bind_eq.
  by destruct (run_pairs fout loaded.2 progbar w3) as [progbar' w4| |].
Qed.






End RunTotal.


(** * Further properties of the code *)

(** ** [slow_edit_distance] as a metric *)

Section EditsMore.
Context {T : Type}.
Implicit Types (a b c : list T).

Lemma edit_step_sym a b : edit_step a b → edit_step b a.
Proof. destruct 1; constructor. Qed.

Lemma edits_snoc n a b c : edits n a b → edit_step b c → edits (S n) a c.
Proof.
  induction 1 as [a|n a a' b Hstep _ IH]; intros Hlast.
  - eapply edits_step; [done|constructor].
  - eapply edits_step; [done|by apply IH].
Qed.

Lemma edits_sym n a b : edits n a b → edits n b a.
Proof.
  induction 1 as [a|n a a' b Hstep _ IH]; [constructor|].
  eapply edits_snoc; [done|by apply edit_step_sym].
Qed.

Lemma edits_trans n m a b c : edits n a b → edits m b c → edits (n + m) a c.
Proof.
  induction 1 as [a|n a a' b Hstep _ IH]; intros Hbc; [done|].
  eapply edits_step; [done|by apply IH].
Qed.

Lemma edit_step_length a b :
  edit_step a b → length b ≤ S (length a) ∧ length a ≤ S (length b).
Proof. destruct 1; rewrite !length_app; simpl; lia. Qed.

Lemma edits_length n a b :
  edits n a b → length b ≤ length a + n ∧ length a ≤ length b + n.
Proof.
  induction 1 as [a|n a a' b Hstep _ IH]; [lia|].
  apply edit_step_length in Hstep. lia.
Qed.

Lemma edits_zero a b : edits 0 a b → a = b.
Proof. by inversion 1. Qed.

Context `{EqDecision T}.

Lemma lev_sym a b : lev a b = lev b a.
Proof.
  eapply min_edits_unique; [apply lev_min_edits|].
  destruct (lev_min_edits b a) as [Hd Hmin]. split; [by apply edits_sym|].
  intros n Hn. by apply Hmin, edits_sym.
Qed.

Lemma lev_triangle a b c : lev a c ≤ lev a b + lev b c.
Proof. apply lev_lower_bound. eapply edits_trans; apply lev_edits. Qed.

Lemma lev_zero a b : lev a b = 0 ↔ a = b.
Proof.
  split; [|intros ->; apply lev_refl].
  intros Hz. apply edits_zero. rewrite <- Hz. apply lev_edits.
Qed.

Lemma lev_upper a b : lev a b ≤ length a `max` length b.
Proof.
  revert b. induction a as [|x a IH]; intros b.
  { rewrite lev_nil_l. lia. }
  destruct b as [|y b].
  { rewrite lev_nil_r. lia. }
  rewrite lev_cons. specialize (IH b). simpl. case_decide; lia.
Qed.

Lemma lev_lower a b : length a - length b ≤ lev a b ∧ length b - length a ≤ lev a b.
Proof. pose proof (edits_length _ _ _ (lev_edits a b)). lia. Qed.

End EditsMore.

(** X1.  [slow_edit_distance] is symmetric: for all token sequences it
    returns the same distance whichever of the two comes first. *)
Theorem slow_edit_distance_symmetric (A B : Field) :
  ∃ d : nat, slow_edit_distance A B = Some d ∧ slow_edit_distance B A = Some d.
Proof.
  exists (lev A B). split; [apply slow_edit_distance_lev|].
  rewrite slow_edit_distance_lev. by rewrite lev_sym.
Qed.

(** X2.  [slow_edit_distance] returns 0 for equal sequences and for no
    others. *)
Theorem slow_edit_distance_zero (A B : Field) :
  slow_edit_distance A B = Some 0 ↔ A = B.
Proof.
  rewrite slow_edit_distance_lev. split.
  - intros [= Hz]. by apply lev_zero.
  - intros ->. by rewrite lev_refl.
Qed.

(** X3.  Against the empty sequence the distance is the length of the other
    sequence, on either side. *)
Theorem slow_edit_distance_empty (A : Field) :
  slow_edit_distance A [] = Some (length A) ∧
  slow_edit_distance [] A = Some (length A).
Proof. rewrite !slow_edit_distance_lev. by rewrite lev_nil_r, lev_nil_l. Qed.

(** X4.  The distances [slow_edit_distance] returns obey the triangle
    inequality. *)
Theorem slow_edit_distance_triangle (A B C : Field) :
  ∃ ab bc ac : nat,
    slow_edit_distance A B = Some ab ∧
    slow_edit_distance B C = Some bc ∧
    slow_edit_distance A C = Some ac ∧
    ac ≤ ab + bc.
Proof.
  exists (lev A B), (lev B C), (lev A C).
  rewrite !slow_edit_distance_lev. split_and!; [done..|apply lev_triangle].
Qed.

(** X5.  The distance is at least the difference of the two lengths and at
    most the greater of them. *)
Theorem slow_edit_distance_bounds (A B : Field) :
  ∃ d : nat,
    slow_edit_distance A B = Some d ∧
    length A - length B ≤ d ∧ length B - length A ≤ d ∧
    d ≤ length A `max` length B.
Proof.
  exists (lev A B). split; [apply slow_edit_distance_lev|].
  pose proof (lev_lower A B). pose proof (lev_upper A B). lia.
Qed.

(** X6.  Tokens that two sequences share at their start and at their end do
    not count: the distance is that of what lies between.  (The code strips
    only the common end before it fills the table.) *)
Theorem slow_edit_distance_common_ends (front back A B : Field) :
  slow_edit_distance (front ++ A ++ back) (front ++ B ++ back) =
    slow_edit_distance A B ∧
  is_Some (slow_edit_distance A B).
Proof.
  rewrite !slow_edit_distance_lev. split; [|done].
  by rewrite lev_common_prefix, lev_common_suffix.
Qed.

(** ** The suffix loop *)

Section Strip.
Context {T : Type} `{EqDecision T}.

Lemma strip_suffix_spec (one two : list T) len1 :
  ∀ len2, len1 ≤ length one → len2 ≤ length two →
    ∃ l1 l2,
      strip_suffix one two len1 len2 = Some (l1, l2) ∧
      l1 ≤ len1 ∧ len1 - l1 = len2 - l2 ∧ l2 ≤ len2 ∧
      drop l1 (take len1 one) = drop l2 (take len2 two) ∧
      (l1 = 0 ∨ l2 = 0 ∨
       ∃ x y, one !! (l1 - 1) = Some x ∧ two !! (l2 - 1) = Some y ∧ x ≠ y).
Proof.
  induction len1 as [|l1 IH]; intros len2 H1 H2.
  { exists 0, len2. split; [by destruct len2|].
    split; [lia|]. split; [lia|]. split; [lia|]. split; [|by left].
    rewrite take_0, drop_0. symmetry. apply drop_ge. rewrite length_take. lia. }
  destruct len2 as [|l2].
  { exists (S l1), 0. split; [done|].
    split; [lia|]. split; [lia|]. split; [lia|]. split; [|right; by left].
    rewrite take_0, drop_0. apply drop_ge. rewrite length_take. lia. }
  destruct (lookup_lt_is_Some_2 one l1) as [x Hx]; [lia|].
  destruct (lookup_lt_is_Some_2 two l2) as [y Hy]; [lia|].
  cbn [strip_suffix]. rewrite Hx, Hy. cbn [mbind option_bind].
  case_decide as Hxy.
  - subst y. destruct (IH l2) as (k1 & k2 & -> & Hk1 & Hdiff & Hk2 & Hdrop & Hmax);
      [lia..|].
    exists k1, k2. split_and!; [done|lia|lia|lia| |done].
    rewrite (take_S_r one l1 x Hx), (take_S_r two l2 x Hy).
    rewrite !drop_app_le by (rewrite length_take; lia). by rewrite Hdrop.
  - exists (S l1), (S l2). split_and!; [done|lia|lia|lia| |].
    + rewrite !drop_ge by (rewrite length_take; lia). done.
    + right. right. exists x, y. by rewrite !Nat.sub_succ, !Nat.sub_0_r.
Qed.

End Strip.

(** X7.  The loop at the head of [slow_edit_distance] stops with [len1] and
    [len2] cut by the same amount, the tokens cut off being the same in both
    sequences; and it stops only when one sequence is used up or the last
    tokens left differ: what it cuts off is the longest common suffix. *)
Theorem strip_suffix_longest_common_suffix (one two : Field) :
  ∃ l1 l2,
    strip_suffix one two (length one) (length two) = Some (l1, l2) ∧
    l1 ≤ length one ∧ l2 ≤ length two ∧
    length one - l1 = length two - l2 ∧
    drop l1 one = drop l2 two ∧
    (l1 = 0 ∨ l2 = 0 ∨
     ∃ x y, one !! (l1 - 1) = Some x ∧ two !! (l2 - 1) = Some y ∧ x ≠ y).
Proof.
  destruct (strip_suffix_spec one two (length one) (length two))
    as (l1 & l2 & Hstrip & ? & ? & ? & Hdrop & Hmax); [done..|].
  exists l1, l2. rewrite !firstn_all in Hdrop. by split_and!.
Qed.

(** ** [Matrix] *)

Lemma Matrix_at_set_other (m m' : Matrix.t) i j v i' j' :
  Matrix.set m i j v = Some m' →
  i' * Matrix.C m + j' ≠ i * Matrix.C m + j →
  Matrix.at_ m' i' j' = Matrix.at_ m i' j'.
Proof.
  unfold Matrix.set, Matrix.at_. case_decide; [|done]. intros [= <-] Hne. cbn.
  by rewrite list_lookup_insert_ne.
Qed.

(** X8.  [Matrix::at] has no bounds check of its own and none per coordinate:
    an assignment through it succeeds exactly when the offset [i * C + j]
    lies inside the buffer; the cell then reads back the value assigned, the
    shape is unchanged, and every cell at another offset reads as before.
    Two coordinate pairs with the same offset, such as [(i, j + C)] and
    [(i + 1, j)], are the same cell.  A cell of a new matrix has no value to
    read. *)
Theorem Matrix_at_is_one_flat_buffer (m : Matrix.t) (i j v : nat) :
  match Matrix.set m i j v with
  | Some m' =>
      i * Matrix.C m + j < length (Matrix.buffer m) ∧
      Matrix.at_ m' i j = Some v ∧
      Matrix.R m' = Matrix.R m ∧ Matrix.C m' = Matrix.C m ∧
      length (Matrix.buffer m') = length (Matrix.buffer m) ∧
      ∀ i' j', i' * Matrix.C m + j' ≠ i * Matrix.C m + j →
               Matrix.at_ m' i' j' = Matrix.at_ m i' j'
  | None => length (Matrix.buffer m) ≤ i * Matrix.C m + j
  end ∧
  Matrix.at_ m i (j + Matrix.C m) = Matrix.at_ m (i + 1) j ∧
  ∀ r c, Matrix.at_ (Matrix.new r c) i j = None.
Proof.
  split; [|split].
  - destruct (Matrix.set m i j v) as [m'|] eqn:Hset.
    + split_and!.
      * unfold Matrix.set in Hset. cbv zeta in Hset. by case_decide.
      * unfold Matrix.set, Matrix.at_ in *. case_decide; [|done].
        injection Hset as <-. cbn. by rewrite list_lookup_insert_eq.
      * unfold Matrix.set in Hset. case_decide; [|done]. by injection Hset as <-.
      * unfold Matrix.set in Hset. case_decide; [|done]. by injection Hset as <-.
      * unfold Matrix.set in Hset. case_decide; [|done]. injection Hset as <-.
        cbn. by rewrite length_insert.
      * intros i' j'. by apply (Matrix_at_set_other m m' i j v).
    + unfold Matrix.set in Hset. cbv zeta in Hset. case_decide; [done|lia].
  - unfold Matrix.at_. do 2 f_equal. lia.
  - intros r c. unfold Matrix.at_, Matrix.new. cbn.
    destruct (replicate (r * c) None !! (i * c + j)) as [cell|] eqn:Hcell; [|done].
    by apply lookup_replicate in Hcell as [-> _].
Qed.

(** ** [string_split] and joining *)

Section SplitMore.
Variable c : ascii.
Implicit Types (s t : string).

Lemma tokens_nil s : tokens s c = [] ↔ s = "".
Proof.
  split; [|by intros ->]. destruct s as [|a s]; [done|]. simpl.
  case_decide; [done|]. by destruct (tokens s c).
Qed.

(** [segments] is [tokens] with the segment after a final separator. *)
Lemma segments_tokens s :
  segments s c =
    tokens s c ++ (if decide (s = "" ∨ last_char s = Some c) then [""] else []).
Proof.
  induction s as [|a s IH]; [by rewrite decide_True by (by left)|].
  cbn [segments tokens last_char]. rewrite IH.
  destruct (decide (s = "")) as [->|Hs].
  - cbn. destruct (decide (a = c)) as [->|Hac].
    + rewrite decide_True by (by left). by rewrite decide_True by (by right).
    + rewrite decide_True by (by left). cbn.
      rewrite decide_False by (intros [?|[=]]; done). done.
  - assert (Hlast : match s with EmptyString => Some a | _ => last_char s end
                    = last_char s) by (by destruct s).
    rewrite Hlast.
    assert (Hiff : (s = "" ∨ last_char s = Some c) ↔
                   (String a s = "" ∨ last_char s = Some c))
      by (split; intros [?|?]; [done|by right|done|by right]).
    rewrite (decide_ext _ _ _ _ Hiff).
    destruct (decide (a = c)); [done|].
    destruct (tokens s c) as [|tok toks] eqn:Htok; [by apply tokens_nil in Htok|].
    done.
Qed.

Lemma join_snoc_empty (segs : list string) :
  segs ≠ [] → join c (segs ++ [""]) = join c segs +:+ String c "".
Proof.
  induction segs as [|seg segs IH]; [done|]. intros _.
  destruct segs as [|seg' segs]; [done|].
  change ((seg :: seg' :: segs) ++ [""]) with (seg :: ((seg' :: segs) ++ [""])).
  rewrite !join_cons by done. rewrite IH by done.
  by rewrite string_app_assoc.
Qed.

Lemma join_tokens s :
  join c (tokens s c) +:+ (if decide (last_char s = Some c) then String c "" else "")
  = s.
Proof.
  pose proof (join_segments c s) as Hjoin. rewrite segments_tokens in Hjoin.
  destruct (decide (s = "")) as [->|Hs]; [done|].
  destruct (decide (last_char s = Some c)) as [Hlast|Hlast].
  - rewrite decide_True in Hjoin by (by right).
    rewrite join_snoc_empty in Hjoin; [done|]. by rewrite tokens_nil.
  - rewrite decide_False in Hjoin by (intros [?|?]; done).
    rewrite (right_id_L [] (++)) in Hjoin. by rewrite string_app_nil_r.
Qed.

Lemma tokens_no_sep s tok : tok ∈ tokens s c → ¬ occurs c tok.
Proof.
  intros Hin. apply (segments_no_sep c s). rewrite segments_tokens.
  apply elem_of_app. by left.
Qed.

Lemma string_split_tokens_free s tok : tok ∈ string_split s c → ¬ occurs c tok.
Proof. rewrite string_split_tokens. apply tokens_no_sep. Qed.

Lemma segments_length s : length (segments s c) = S (count_sep c s).
Proof.
  induction s as [|a s IH]; [done|]. cbn [segments count_sep].
  case_decide; [cbn; by rewrite IH|].
  pose proof (segments_nonempty c s).
  destruct (segments s c); [done|]. cbn in *. lia.
Qed.

Lemma segments_sep_free t : ¬ occurs c t → segments t c = [t].
Proof.
  induction t as [|a t IH]; [done|]. cbn. intros Hocc.
  rewrite decide_False by tauto. rewrite IH by tauto. done.
Qed.

Lemma tokens_sep_free t :
  ¬ occurs c t → tokens t c = if decide (t = "") then [] else [t].
Proof.
  intros Hfree. pose proof (segments_tokens t) as Hseg.
  rewrite (segments_sep_free t Hfree) in Hseg.
  destruct (decide (t = "")) as [->|Ht]; [done|].
  destruct (tokens t c) as [|tok toks] eqn:Htok; [by apply tokens_nil in Htok|].
  destruct toks as [|tok' toks].
  - case_decide; cbn in Hseg; [done|]. by injection Hseg as ->.
  - case_decide; cbn in Hseg; [|done].
    injection Hseg as -> Htoks. by destruct toks.
Qed.

(** Splitting undoes joining, for parts without separator the last of which
    is not empty. *)
Lemma tokens_join (segs : list string) :
  (∀ seg, seg ∈ segs → ¬ occurs c seg) → last segs ≠ Some "" →
  tokens (join c segs) c = segs.
Proof.
  induction segs as [|seg segs IH]; [done|]. intros Hfree Hlast.
  destruct segs as [|seg' segs].
  - cbn [join]. rewrite tokens_sep_free by (apply Hfree; by left).
    rewrite decide_False; [done|]. intros ->. by apply Hlast.
  - rewrite join_cons by done. rewrite tokens_after_sep.
    rewrite segments_sep_free by (apply Hfree; by left).
    cbn [app]. f_equal. apply IH; [|done].
    intros seg0 Hin. apply Hfree. by right.
Qed.

End SplitMore.

(** X9.  Joining the tokens [string_split] returns with the separator gives
    the string back, except for one separator at its very end, which
    splitting loses: ["a"] and ["a "] split at spaces into the same tokens. *)
Theorem string_split_join (s : string) (c : ascii) :
  join c (string_split s c) +:+
    (if decide (last_char s = Some c) then String c "" else "") = s.
Proof. rewrite string_split_tokens. apply join_tokens. Qed.

(** X10.  No token [string_split] returns holds the separator, and their
    number is the number of separators in the string, plus one unless the
    string is empty or ends with the separator. *)
Theorem string_split_tokens_counted (s : string) (c : ascii) :
  (∀ tok, tok ∈ string_split s c → ¬ occurs c tok) ∧
  length (string_split s c) =
    count_sep c s + (if decide (s = "" ∨ last_char s = Some c) then 0 else 1).
Proof.
  rewrite string_split_tokens. split; [apply tokens_no_sep|].
  pose proof (segments_length c s) as Hlen.
  rewrite segments_tokens, length_app in Hlen.
  case_decide; cbn in Hlen; lia.
Qed.

(** X11.  [string_split] works from left to right: the text before the first
    separator is the first token and the rest is split in the same way; a
    string without separator is a single token, or none when it is empty. *)
Theorem string_split_first_token (t : string) (c : ascii) (Hfree : ¬ occurs c t) :
  (∀ s, string_split (t +:+ String c s) c = t :: string_split s c) ∧
  string_split t c = if decide (t = "") then [] else [t].
Proof.
  split.
  - intros s. rewrite !string_split_tokens, tokens_after_sep.
    by rewrite segments_sep_free.
  - rewrite string_split_tokens. by apply tokens_sep_free.
Qed.

Lemma string_split_first_token_witness :
  string_split ("id1" +:+ String tab "foo bar") tab = ["id1"; "foo bar"].
Proof.
  destruct (string_split_first_token "id1" tab) as [Hcons _].
  { vm_compute. intros [[=]|[[=]|[[=]|[]]]]. }
  rewrite Hcons.
  destruct (string_split_first_token "foo bar" tab) as [_ Hone].
  { vm_compute. intuition discriminate. }
  rewrite Hone. reflexivity.
Defined.

(** ** More on [load] *)

Lemma filter_filter_impl {A : Type} (P Q : A → Prop)
    `{!∀ x, Decision (P x)} `{!∀ x, Decision (Q x)} (l : list A) :
  (∀ x, P x → Q x) → filter P (filter Q l) = filter P l.
Proof.
  intros HPQ. induction l as [|x l IH]; [done|].
  destruct (decide (Q x)) as [HQ|HQ].
  - rewrite (filter_cons_True Q) by done.
    destruct (decide (P x)).
    + rewrite !(filter_cons_True P) by done. by rewrite IH.
    + by rewrite !(filter_cons_False P) by done.
  - rewrite (filter_cons_False Q) by done.
    rewrite (filter_cons_False P) by (intros ?; by apply HQ, HPQ). done.
Qed.


Lemma kept_well_formed nf line : kept nf line → well_formed line.
Proof. by intros [? _]. Qed.

Lemma list_find_filter_impl {A : Type} (P Q : A → Prop)
    `{!∀ x, Decision (P x)} `{!∀ x, Decision (Q x)} (l : list A) :
  (∀ x, P x → Q x) →
  snd <$> list_find P (filter Q l) = snd <$> list_find P l.
Proof.
  intros HPQ. induction l as [|x l IH]; [done|].
  destruct (decide (Q x)) as [HQ|HQ].
  - rewrite (filter_cons_True Q) by done. cbn.
    case_decide; [done|].
    destruct (list_find P (filter Q l)) as [[??]|], (list_find P l) as [[??]|];
      cbn in *; congruence.
  - rewrite (filter_cons_False Q) by done. cbn.
    rewrite decide_False by (intros ?; by apply HQ, HPQ).
    destruct (list_find P (filter Q l)) as [[??]|], (list_find P l) as [[??]|];
      cbn in *; congruence.
Qed.

Lemma field_count_not_blank ls :
  field_count (filter (λ l, l ≠ "") ls) = field_count ls.
Proof.
  unfold field_count.
  pose proof (list_find_filter_impl well_formed (λ l, l ≠ "") ls
                well_formed_not_empty) as Hfind.
  destruct (list_find well_formed (filter _ ls)) as [[k l]|],
           (list_find well_formed ls) as [[k' l']|]; cbn in *; congruence.
Qed.

Lemma occurs_app c s t : occurs c (s +:+ t) ↔ occurs c s ∨ occurs c t.
Proof.
  induction s as [|a s IH]; [cbn; tauto|].
  rewrite string_app_cons. cbn. rewrite IH. tauto.
Qed.

(** A part of [s] between separators holds only characters of [s]. *)
Lemma segments_occurs c c' s seg : seg ∈ segments s c → occurs c' seg → occurs c' s.
Proof.
  revert seg. induction s as [|a s IH]; intros seg; cbn.
  - by intros ->%list_elem_of_singleton.
  - case_decide.
    + intros [->|Hin]%elem_of_cons Hocc; [done|]. right. by eapply IH.
    + pose proof (segments_nonempty c s).
      destruct (segments s c) as [|seg0 segs]; [done|].
      intros [->|Hin]%elem_of_cons Hocc.
      * destruct Hocc as [?|Hocc]; [by left|]. right. apply (IH seg0); [by left|done].
      * right. apply (IH seg); [by right|done].
Qed.

Lemma string_split_occurs c c' s tok :
  tok ∈ string_split s c → occurs c' tok → occurs c' s.
Proof.
  rewrite string_split_tokens. intros Hin. apply (segments_occurs c).
  rewrite segments_tokens. apply elem_of_app. by left.
Qed.

(** The records and the diagnostics come from the non-blank lines. *)
Lemma filters_of_buffer nf (ls : list string) :
  filter (kept nf) (filter (λ l, l ≠ "") ls) = filter (kept nf) ls ∧
  filter (λ l, ¬ kept nf l) (filter (λ l, l ≠ "") ls) =
    filter (λ l, l ≠ "" ∧ ¬ kept nf l) ls.
Proof.
  split.
  - apply filter_filter_impl. intros l Hkept.
    by apply well_formed_not_empty, (kept_well_formed nf).
  - induction ls as [|l ls IH]; [done|].
    rewrite !filter_cons.
    destruct (decide (l ≠ "")), (decide (l ≠ "" ∧ ¬ kept nf l)),
             (decide (¬ kept nf l)); rewrite ?filter_cons;
      repeat case_decide; rewrite ?IH; try done; tauto.
Qed.

(** What a record made from a line without newline holds. *)
Lemma record_of_clean line :
  well_formed line → ¬ occurs newline line →
  Line.fields (record_of line) ≠ [] ∧
  ¬ occurs tab (Line.id (record_of line)) ∧
  ¬ occurs newline (Line.id (record_of line)) ∧
  ∀ field tok, field ∈ Line.fields (record_of line) → tok ∈ field →
    ¬ occurs tab tok ∧ ¬ occurs space tok ∧ ¬ occurs newline tok.
Proof.
  intros Hwf Hnl. unfold well_formed, chunk_count in Hwf.
  unfold record_of. cbn [Line.id Line.fields].
  destruct (string_split line tab) as [|id chunks] eqn:Hsplit; [cbn in Hwf; lia|].
  destruct chunks as [|chunk chunks]; [cbn in Hwf; lia|].
  assert (Hchunk : ∀ ch, ch ∈ id :: chunk :: chunks →
                         ¬ occurs tab ch ∧ ¬ occurs newline ch).
  { intros ch Hch. rewrite <- Hsplit in Hch. split.
    - by apply (string_split_tokens_free tab line).
    - intros Hocc. apply Hnl. by apply (string_split_occurs tab newline line ch). }
  split; [done|]. cbn [head default].
  split; [apply Hchunk; by left|]. split; [apply Hchunk; by left|].
  intros field tok (ch & -> & Hch)%list_elem_of_fmap Htok.
  destruct (Hchunk ch) as [Htab Hnewline]; [by right|].
  split; [|split].
  - intros Hocc. apply Htab. by apply (string_split_occurs space tab ch tok).
  - by apply (string_split_tokens_free space ch).
  - intros Hocc. apply Hnewline. by apply (string_split_occurs space newline ch tok).
Qed.

(** The entries are made of the lines that are kept, in their order. *)
Lemma entries_kept nf ls :
  ∀ slot,
    Forall2 (λ line entry,
               entry.2 = record_of line ∧ kept nf line ∧
               filter (λ l, l ≠ "") ls !! (entry.1 - slot) = Some line ∧
               slot ≤ entry.1)
      (filter (kept nf) ls) (entries (kept nf) slot ls).
Proof.
  induction ls as [|l ls IH]; intros slot; [constructor|].
  rewrite !filter_cons. cbn [entries].
  destruct (decide (l = "")) as [->|Hl].
  - rewrite (decide_False (P := kept nf "")) by apply kept_not_empty.
    rewrite (decide_False (P := "" ≠ "")) by tauto. apply IH.
  - rewrite (decide_True (P := l ≠ "")) by done.
    assert (Hrest : Forall2 (λ line entry,
               entry.2 = record_of line ∧ kept nf line ∧
               (l :: filter (λ l, l ≠ "") ls) !! (entry.1 - slot) = Some line ∧
               slot ≤ entry.1)
             (filter (kept nf) ls) (entries (kept nf) (S slot) ls)).
    { eapply Forall2_impl; [apply IH|]. intros line [k r] (Hr & Hkept & Hline & Hle).
      cbn [fst snd] in *. split; [done|]. split; [done|].
      replace (k - slot) with (S (k - S slot)) by lia. split; [done|lia]. }
    case_decide; [|done]. constructor; [|done].
    cbn [fst snd]. by rewrite Nat.sub_diag.
Qed.

Section LoadMore.
Context {heap : Heap}.

(** The records of the store are read through the views into the lines that
    are kept, in their order: each has the shape of the record of its line,
    and is that record when the line is longer than [local_capacity]. *)
Lemma store_of_kept nf buffer :
  "" ∉ buffer →
  Forall2 (λ line r,
             same_shape r (record_of line) ∧
             (local_capacity < String.length line → r = record_of line))
    (filter (kept nf) buffer) (store_of nf buffer).
Proof.
  intros Hblank. unfold store_of. apply Forall2_fmap_r.
  eapply Forall2_impl; [apply (entries_kept nf buffer 0)|].
  intros line [slot r] (Hr & [Hwf _] & Hline & _). cbn [fst snd] in Hr, Hline.
  subst r. rewrite Nat.sub_0_r, filter_not_blank in Hline by done.
  split; [by apply read_back_shape|].
  intros Hlong. apply read_back_intact; [done|by left].
Qed.


(** X13.  Blank lines do not matter to [load]: two inputs with the same
    non-blank lines give the same buffer, the same records and the same
    diagnostics.  In particular a newline added at the end of the input
    changes nothing. *)
Theorem load_ignores_blank_lines
    (fuel1 fuel2 : nat) (filename1 filename2 content1 content2 : string)
    (w1 w2 : world)
    (Hfile1 : files w1 !! filename1 = Some content1)
    (Hfile2 : files w2 !! filename2 = Some content2)
    (Hfuel1 : String.length content1 + 1 < fuel1)
    (Hfuel2 : String.length content2 + 1 < fuel2)
    (Hsame : filter (λ l, l ≠ "") (file_lines content1) =
             filter (λ l, l ≠ "") (file_lines content2)) :
  (∃ store msgs w1' w2',
     load fuel1 filename1 w1 = Done store w1' ∧
     load fuel2 filename2 w2 = Done store w2' ∧
     cerr w1' = cerr w1 ++ msgs ∧ cerr w2' = cerr w2 ++ msgs) ∧
  filter (λ l, l ≠ "") (file_lines (content1 +:+ String newline "")) =
    filter (λ l, l ≠ "") (file_lines content1).
Proof.
  split.
  - set (ls1 := file_lines content1) in *. set (ls2 := file_lines content2) in *.
    assert (Hnf : field_count ls1 = field_count ls2)
      by (by rewrite <- (field_count_not_blank ls1),
                     <- (field_count_not_blank ls2), Hsame).
    destruct (filters_of_buffer (default 0 (field_count ls1)) ls1) as [_ Hm1].
    destruct (filters_of_buffer (default 0 (field_count ls1)) ls2) as [_ Hm2].
    eexists _, _, _, _. split; [by apply load_opened|].
    split; [|split; [done|]].
    + rewrite (load_opened _ _ _ _ Hfile2) by done. fold ls1 ls2.
      by rewrite <- Hnf, <- Hsame.
    + cbn. fold ls1. by rewrite <- Hm1, Hsame, Hm2.
  - unfold file_lines. rewrite segments_ends_with_sep, filter_app.
    rewrite (filter_cons_False _ "") by (intros ?; done).
    by rewrite filter_nil, (right_id_L [] (++)).
Qed.

(** The records [load] returns when every buffered line is longer than
    [local_capacity] are the records of lines of the input. *)
Lemma load_records_intact fuel filename w buffer lines w' r :
  load fuel filename w = Done (buffer, lines) w' →
  (∀ l, l ∈ buffer → local_capacity < String.length l) → r ∈ lines →
  ∃ line, r = record_of line ∧ well_formed line ∧ ¬ occurs newline line.
Proof.
  intros Hload Hlong Hr.
  destruct (load_returned _ _ _ _ _ _ Hload) as (content & _ & -> & -> & _).
  apply store_of_elem in Hr as (slot & line & Hline & [Hwf _] & ->);
    [|apply not_blank_filter].
  pose proof (list_elem_of_lookup_2 _ _ _ Hline) as Hin.
  exists line. split.
  - apply read_back_intact; [done|]. left. by apply Hlong.
  - split; [done|]. apply list_elem_of_filter in Hin as [_ Hin].
    by apply (segments_no_sep newline content).
Qed.

(** X14.  Whatever [load] returns, no buffered line is empty or holds a
    newline, and every record has at least one field.  When every buffered
    line is longer than [local_capacity], so that no view into it can come
    to point into freed storage, the id of a record holds neither a tab nor
    a newline, and no token of its fields holds a tab, a space or a
    newline. *)
Theorem load_records_hold_no_separator
    (fuel : nat) (filename : string) (w : world)
    (buffer : list string) (lines : list Line.t) (w' : world)
    (Hload : load fuel filename w = Done (buffer, lines) w') :
  (∀ l, l ∈ buffer → l ≠ "" ∧ ¬ occurs newline l) ∧
  (∀ r, r ∈ lines → Line.fields r ≠ []) ∧
  ((∀ l, l ∈ buffer → local_capacity < String.length l) →
   ∀ r, r ∈ lines →
     ¬ occurs tab (Line.id r) ∧ ¬ occurs newline (Line.id r) ∧
     ∀ field tok, field ∈ Line.fields r → tok ∈ field →
       ¬ occurs tab tok ∧ ¬ occurs space tok ∧ ¬ occurs newline tok).
Proof.
  split; [|split].
  - destruct (load_returned _ _ _ _ _ _ Hload) as (content & _ & -> & _ & _).
    intros l [Hne Hin]%list_elem_of_filter. split; [done|].
    by apply (segments_no_sep newline content).
  - destruct (load_returned _ _ _ _ _ _ Hload) as (content & _ & -> & -> & _).
    intros r Hr.
    apply store_of_elem in Hr as (slot & line & Hline & [Hwf Hnf] & ->);
      [|apply not_blank_filter].
    pose proof (same_shape_fields _ _ (read_back_shape _
                  (relocated_of (length (filter (λ l, l ≠ "")
                                           (file_lines content))))
                  _ _ Hline Hwf)) as Hlen.
    rewrite (kept_record_fields (chunk_count line - 1) line) in Hlen by done.
    intros Hnil. rewrite Hnil in Hlen. unfold well_formed in Hwf. cbn in Hlen. lia.
  - intros Hlong r Hr.
    destruct (load_records_intact _ _ _ _ _ _ _ Hload Hlong Hr)
      as (line & -> & Hwf & Hnl).
    by apply record_of_clean.
Qed.

End LoadMore.


Lemma load_ignores_blank_lines_witness :
  ∃ store w1' w2',
    load (heap := observed) 40 "in.tsv" two_records = Done store w1' ∧
    load (heap := observed) 40 "in.tsv" two_records_unterminated = Done store w2'.
Proof.
  destruct (load_ignores_blank_lines (heap := observed) 40 40 "in.tsv" "in.tsv"
              ("a" +:+ TAB +:+ "hello world" +:+ NL +:+
               "b" +:+ TAB +:+ "hallo world" +:+ NL)
              ("a" +:+ TAB +:+ "hello world" +:+ NL +:+
               "b" +:+ TAB +:+ "hallo world")
              two_records two_records_unterminated)
    as [(store & msgs & w1' & w2' & Hload1 & Hload2 & _) _];
    [reflexivity|reflexivity|simpl; lia|simpl; lia|vm_compute; reflexivity|].
  exists store, w1', w2'. split; [exact Hload1|exact Hload2].
Defined.

Lemma load_records_hold_no_separator_witness :
  ∃ buffer lines w',
    load (heap := observed) 40 "in.tsv" two_long_records =
      Done (buffer, lines) w' ∧
    ∀ r, r ∈ lines → ¬ occurs tab (Line.id r) ∧ ¬ occurs newline (Line.id r).
Proof.
  eassert (Hload : load (heap := observed) 40 "in.tsv" two_long_records =
                   Done (_, _) _)
    by (vm_compute; reflexivity).
  destruct (load_records_hold_no_separator _ _ _ _ _ _ Hload) as (_ & _ & Hrec).
  eexists _, _, _. split; [exact Hload|].
  intros r Hr. destruct (Hrec ltac:(vm_compute; intros l Hl;
    repeat (apply elem_of_cons in Hl as [->|Hl]; [vm_compute; lia|]);
    by apply elem_of_nil in Hl) r Hr) as (Htab & Hnl & _).
  split; [exact Htab|exact Hnl].
Defined.

(** ** More on [process] *)

(** A counted loop in [option] whose body fails at one of its rounds fails. *)
Lemma for_range_fails {St : Type} n start (body : nat → St → option St) s k :
  start ≤ k < start + n → (∀ s0, body k s0 = None) →
  for_range n start body s = None.
Proof.
  revert start s. induction n as [|n IH]; intros start s Hk Hbody; [lia|].
  cbn [for_range]. destruct (decide (k = start)) as [->|Hne].
  - by rewrite Hbody.
  - destruct (body start s) as [s'|]; [|done]. cbn. apply IH; [lia|done].
Qed.

Lemma process_eds_enough_fields (one two : Line.t) :
  length (Line.fields one) ≤ length (Line.fields two) →
  process_eds one two = Some (zip_with lev (Line.fields one) (Line.fields two)).
Proof.
  intros Hlen. unfold process_eds.
  rewrite process_eds_from by lia.
  by rewrite !drop_0, firstn_all, zip_with_take_r.
Qed.

Lemma zip_with_lev_sym (fs gs : list (list string)) :
  zip_with lev fs gs = zip_with lev gs fs.
Proof.
  revert gs. induction fs as [|f fs IH]; intros [|g gs]; [done..|].
  cbn. by rewrite lev_sym, IH.
Qed.

Lemma zip_with_lev_zero (fs gs : list (list string)) :
  length fs = length gs →
  zip_with lev fs gs = replicate (length fs) 0 ↔ fs = gs.
Proof.
  revert gs. induction fs as [|f fs IH]; intros [|g gs] Hlen; [done..|].
  cbn in *. split.
  - intros [= Hhead Htail]. apply lev_zero in Hhead as ->.
    f_equal. apply IH; [lia|done].
  - intros [= -> ->]. f_equal; [by apply lev_zero|]. apply IH; [lia|done].
Qed.

(** X15.  For two records with the same number of fields, [process] computes
    the same distances whichever of them comes first, and the distances are
    all zero exactly when the two records have the same fields. *)
Theorem process_eds_symmetric (one two : Line.t)
    (Hlen : length (Line.fields one) = length (Line.fields two)) :
  (∃ eds, process_eds one two = Some eds ∧ process_eds two one = Some eds) ∧
  (process_eds one two = Some (replicate (length (Line.fields one)) 0) ↔
   Line.fields one = Line.fields two).
Proof.
  rewrite !process_eds_spec by done. split.
  - eexists. split; [done|]. by rewrite zip_with_lev_sym.
  - rewrite <- (zip_with_lev_zero _ _ Hlen). split; [by intros [=]|by intros ->].
Qed.

Lemma process_eds_symmetric_witness :
  process_eds {| Line.id := "a"; Line.fields := [["hello"; "world"]] |}
              {| Line.id := "b"; Line.fields := [["hello"; "world"]] |} = Some [0].
Proof.
  apply (process_eds_symmetric
           {| Line.id := "a"; Line.fields := [["hello"; "world"]] |}
           {| Line.id := "b"; Line.fields := [["hello"; "world"]] |});
    reflexivity.
Defined.

(** X16.  [process] takes the number of fields from its first record.  When
    the second record has fewer fields, it reads past the end of that
    record's fields, and nothing is written; when it has more, the
    additional fields are ignored and the line written holds one distance for
    each field of the first record. *)
Theorem process_counts_fields_of_first
    (fout : ofstream.t) (bar : Progbar.t) (one two : Line.t) (w : world) :
  (length (Line.fields two) < length (Line.fields one) →
   process fout bar one two w = Crash Out_of_range w) ∧
  (length (Line.fields one) ≤ length (Line.fields two) →
   (0 ≤ Progbar.current bar)%Z →
   ∃ eds bar',
     process_eds one two = Some eds ∧
     length eds = length (Line.fields one) ∧
     (∀ k a b, Line.fields one !! k = Some a → Line.fields two !! k = Some b →
               slow_edit_distance a b = eds !! k) ∧
     process fout bar one two w =
       Done bar' (written fout (result_line one two eds) w)).
Proof.
  split.
  - intros Hshort. unfold process. rewrite prog_bind_eq.
    assert (Hnone : process_eds one two = None); [|by rewrite Hnone].
    unfold process_eds.
    apply for_range_fails with (k := length (Line.fields two)); [lia|].
    intros eds.
    destruct (Line.fields one !! length (Line.fields two)); [|done]. cbn.
    by rewrite lookup_ge_None_2.
  - intros Hlong Hbar.
    destruct (Progbar_inc_ok bar
                (written fout
                   (result_line one two
                      (zip_with lev (Line.fields one) (Line.fields two))) w) Hbar)
      as (bar' & Hinc & _).
    eexists _, bar'. split; [by apply process_eds_enough_fields|].
    split; [rewrite length_zip_with; lia|]. split.
    + intros k a b Ha Hb. rewrite slow_edit_distance_lev.
      by rewrite lookup_zip_with, Ha, Hb.
    + unfold process. rewrite prog_bind_eq.
      rewrite process_eds_enough_fields by done. cbn [defined mret prog_ret].
      by rewrite prog_bind_eq, write_result_spec.
Qed.

Lemma process_counts_fields_of_first_witness :
  process {| ofstream.path := "out.tsv"; ofstream.is_open := true |}
          {| Progbar.current := 0; Progbar.total := 1 |}
          {| Line.id := "a"; Line.fields := [["x"]; ["y"]] |}
          {| Line.id := "b"; Line.fields := [["x"]] |} no_files =
    Crash Out_of_range no_files ∧
  ∃ bar' w',
    process {| ofstream.path := "out.tsv"; ofstream.is_open := true |}
            {| Progbar.current := 0; Progbar.total := 1 |}
            {| Line.id := "b"; Line.fields := [["x"]] |}
            {| Line.id := "a"; Line.fields := [["x"]; ["y"]] |} no_files =
      Done bar' w'.
Proof.
  split.
  - apply process_counts_fields_of_first. simpl. lia.
  - destruct (process_counts_fields_of_first
                {| ofstream.path := "out.tsv"; ofstream.is_open := true |}
                {| Progbar.current := 0; Progbar.total := 1 |}
                {| Line.id := "b"; Line.fields := [["x"]] |}
                {| Line.id := "a"; Line.fields := [["x"]; ["y"]] |} no_files)
      as [_ Hlong].
    destruct Hlong as (eds & bar' & _ & _ & _ & Hrun); [simpl; lia|simpl; lia|].
    eexists _, _. exact Hrun.
Defined.

(** ** The lines [process] writes *)

Lemma string_of_uint_digits d a :
  occurs a (NilEmpty.string_of_uint d) → a ∈ digits.
Proof.
  induction d as [|d IH|d IH|d IH|d IH|d IH|d IH|d IH|d IH|d IH|d IH];
    cbn; [done|..]; (intros [<-|Hocc]; [|by apply IH]);
    unfold digits; rewrite !elem_of_cons; tauto.
Qed.

Lemma decimal_digits n a : occurs a (decimal n) → a ∈ digits.
Proof. apply string_of_uint_digits. Qed.

Lemma decimal_not_empty n : decimal n ≠ "".
Proof.
  unfold decimal. intros Hnil.
  assert (Hnorm : Nat.to_uint n = Decimal.unorm (Nat.to_uint n)).
  { rewrite <- DecimalNat.Unsigned.to_of. by rewrite DecimalNat.Unsigned.of_to. }
  apply (DecimalFacts.unorm_nonnil (Nat.to_uint n)). rewrite <- Hnorm.
  by destruct (Nat.to_uint n).
Qed.

Lemma decimal_inj n m : decimal n = decimal m → n = m.
Proof.
  unfold decimal. intros Heq.
  apply (f_equal NilEmpty.uint_of_string) in Heq.
  rewrite !NilEmpty.usu in Heq. injection Heq as Heq.
  apply (f_equal Nat.of_uint) in Heq.
  by rewrite !DecimalNat.Unsigned.of_to in Heq.
Qed.

Lemma result_tail_join (s : string) (eds : list nat) :
  s +:+ string_concat (ed ← eds; [String tab ""; decimal ed]) =
    join tab (s :: (decimal <$> eds)).
Proof.
  revert s. induction eds as [|ed eds IH]; intros s; [apply string_app_nil_r|].
  cbn [fmap list_fmap]. rewrite join_cons by done. rewrite <- IH.
  cbn [mbind list_bind app string_concat]. reflexivity.
Qed.

Lemma result_line_join (one two : Line.t) (eds : list nat) :
  result_line one two eds =
    join tab (Line.id one :: Line.id two :: (decimal <$> eds)) +:+ String newline "".
Proof.
  unfold result_line, result_pieces. rewrite join_cons by done.
  rewrite <- result_tail_join.
  cbn [app string_concat]. rewrite !string_concat_app. cbn [string_concat].
  repeat rewrite ?string_app_assoc, ?string_app_cons, ?string_app_nil_l,
    ?string_app_nil_r.
  reflexivity.
Qed.

Lemma decimal_clean n :
  ¬ occurs tab (decimal n) ∧ ¬ occurs newline (decimal n) ∧ decimal n ≠ "".
Proof.
  split; [|split; [|apply decimal_not_empty]];
    intros Hocc%decimal_digits; unfold digits in Hocc;
    repeat (apply elem_of_cons in Hocc as [[=]|Hocc]); by apply elem_of_nil in Hocc.
Qed.

Lemma join_no_newline (segs : list string) :
  (∀ seg, seg ∈ segs → ¬ occurs newline seg) → ¬ occurs newline (join tab segs).
Proof.
  induction segs as [|seg segs IH]; [tauto|]. intros Hfree.
  destruct segs as [|seg' segs]; [apply Hfree; by left|].
  rewrite join_cons by done. rewrite occurs_app. cbn [occurs].
  intros [Hocc|[[=]|Hocc]].
  - by apply (Hfree seg); [left|].
  - apply IH; [|done]. intros seg0 Hin. apply Hfree. by right.
Qed.

(** The text of an output line before its newline, and its columns. *)
Lemma result_line_body (one two : Line.t) (eds : list nat) :
  ¬ occurs tab (Line.id one) ∧ ¬ occurs newline (Line.id one) →
  ¬ occurs tab (Line.id two) ∧ ¬ occurs newline (Line.id two) →
  eds ≠ [] →
  let body := join tab (Line.id one :: Line.id two :: (decimal <$> eds)) in
  result_line one two eds = body +:+ String newline "" ∧
  ¬ occurs newline body ∧
  string_split body tab = Line.id one :: Line.id two :: (decimal <$> eds).
Proof.
  intros Hone Htwo Heds body. split; [apply result_line_join|].
  assert (Hdec : ∀ seg, seg ∈ decimal <$> eds →
                        ¬ occurs tab seg ∧ ¬ occurs newline seg ∧ seg ≠ "").
  { intros seg (ed & -> & _)%list_elem_of_fmap. apply decimal_clean. }
  split.
  - apply join_no_newline.
    intros seg [->|[->|Hin]%elem_of_cons]%elem_of_cons; [tauto|tauto|].
    by apply Hdec.
  - unfold body. rewrite string_split_tokens. apply tokens_join.
    + intros seg [->|[->|Hin]%elem_of_cons]%elem_of_cons; [tauto|tauto|].
      by apply Hdec.
    + destruct eds as [|ed eds]; [done|].
      change (Line.id one :: Line.id two :: (decimal <$> ed :: eds))
        with ([Line.id one; Line.id two] ++ (decimal <$> ed :: eds)).
      rewrite last_app. destruct (last (decimal <$> ed :: eds)) as [seg|] eqn:Hlast.
      * intros [= ->]. apply last_Some_elem_of in Hlast.
        by apply Hdec in Hlast as (_ & _ & ?).
      * by apply last_None in Hlast.
Qed.

(** X17.  A line [process] writes can be read back: when the ids hold no tab
    and there is at least one distance, the line is a text without newline
    followed by one newline, and [string_split] of that text at tabs gives
    the two ids followed by the distances in decimal; and the decimal writing
    of a distance determines it. *)
Theorem result_line_reads_back (one two : Line.t) (eds : list nat)
    (Hone : ¬ occurs tab (Line.id one) ∧ ¬ occurs newline (Line.id one))
    (Htwo : ¬ occurs tab (Line.id two) ∧ ¬ occurs newline (Line.id two))
    (Heds : eds ≠ []) :
  (∃ body,
     result_line one two eds = body +:+ String newline "" ∧
     ¬ occurs newline body ∧
     string_split body tab = Line.id one :: Line.id two :: (decimal <$> eds)) ∧
  (∀ n m, decimal n = decimal m → n = m).
Proof.
  split; [|apply decimal_inj].
  exists (join tab (Line.id one :: Line.id two :: (decimal <$> eds))).
  by apply result_line_body.
Qed.

Lemma result_line_reads_back_witness :
  ∃ body,
    result_line {| Line.id := "a"; Line.fields := [["hello"; "world"]] |}
                {| Line.id := "b"; Line.fields := [["hallo"; "world"]] |} [1] =
      body +:+ String newline "" ∧
    string_split body tab = ["a"; "b"; "1"].
Proof.
  destruct (result_line_reads_back
              {| Line.id := "a"; Line.fields := [["hello"; "world"]] |}
              {| Line.id := "b"; Line.fields := [["hallo"; "world"]] |} [1])
    as [(body & Hline & _ & Hsplit) _].
  - split; vm_compute; intuition discriminate.
  - split; vm_compute; intuition discriminate.
  - discriminate.
  - exists body. split; [exact Hline|exact Hsplit].
Defined.

(** ** The progress counter *)




Lemma progbar_total_mod n :
  progbar_total n = (((Z.of_nat n * (Z.of_nat n - 1)) `mod` 2 ^ 64) `div` 2)%Z.
Proof.
  unfold progbar_total, size_t_wrap, size_t_mod.
  by rewrite Z.mul_mod_idemp_r by lia.
Qed.

Lemma all_pairs_length_Z n :
  Z.of_nat (length (all_pairs n)) = ((Z.of_nat n * (Z.of_nat n - 1)) `div` 2)%Z.
Proof.
  rewrite all_pairs_length, Nat2Z.inj_div, Nat2Z.inj_mul. destruct n; [done|].
  by rewrite Nat2Z.inj_sub by lia.
Qed.

Lemma progbar_total_fits n :
  (Z.of_nat n * (Z.of_nat n - 1) < 2 ^ 64)%Z →
  progbar_total n = Z.of_nat (length (all_pairs n)).
Proof.
  intros Hfit. rewrite progbar_total_mod, all_pairs_length_Z.
  by rewrite Z.mod_small by nia.
Qed.

Lemma progbar_total_range n : (0 ≤ progbar_total n < 2 ^ 63)%Z.
Proof.
  rewrite progbar_total_mod.
  pose proof (Z.mod_pos_bound (Z.of_nat n * (Z.of_nat n - 1)) (2 ^ 64)
                ltac:(lia)) as Hmod.
  split; [apply Z.div_pos; lia|]. apply Z.div_lt_upper_bound; lia.
Qed.

(** X18.  The progress total [run] computes is below [2^63], and it is the
    number of pairs, [n * (n - 1) / 2], exactly when [n * (n - 1)] fits in a
    [size_t]; for more records the multiplication wraps and the total is too
    small. *)
Theorem progbar_total_exact (n : nat) :
  (0 ≤ progbar_total n < 2 ^ 63)%Z ∧
  (progbar_total n = (Z.of_nat n * (Z.of_nat n - 1)) `div` 2 ↔
   Z.of_nat n * (Z.of_nat n - 1) < 2 ^ 64)%Z ∧
  (progbar_total n ≤ Z.of_nat (length (all_pairs n)))%Z.
Proof.
  pose proof (progbar_total_range n) as Hrange.
  split; [done|]. split; [split|].
  - intros Heq.
    destruct (decide (Z.of_nat n * (Z.of_nat n - 1) < 2 ^ 64)%Z) as [|Hbig];
      [done|]. exfalso.
    assert ((2 ^ 63 ≤ (Z.of_nat n * (Z.of_nat n - 1)) `div` 2)%Z)
      by (apply Z.div_le_lower_bound; lia).
    lia.
  - intros Hfit. by rewrite progbar_total_fits, all_pairs_length_Z.
  - rewrite progbar_total_mod, all_pairs_length_Z.
    apply Z.div_le_mono; [lia|]. apply Z.mod_le; [nia|lia].
Qed.

Section Progress.
Context {heap : Heap}.


End Progress.


(** X20.  Between its brackets [Progbar::print] draws exactly [LENGTH]
    characters as long as the counter is below the total, and never more
    than [LENGTH]: when the counter has reached the total it draws [LENGTH]
    times [=] provided [total * LENGTH] fits in a [size_t]. *)
Theorem bar_cells_fill_the_bar (bar : Progbar.t)
    (Hcur : (0 ≤ Progbar.current bar ≤ Progbar.total bar)%Z)
    (Htotal : (0 < Progbar.total bar)%Z) :
  length (bar_cells bar) ≤ Z.to_nat Progbar.LENGTH ∧
  ((Progbar.current bar < Progbar.total bar)%Z →
   length (bar_cells bar) = Z.to_nat Progbar.LENGTH) ∧
  (Progbar.current bar = Progbar.total bar →
   (Progbar.total bar * Progbar.LENGTH < size_t_mod)%Z →
   bar_cells bar = replicate (Z.to_nat Progbar.LENGTH) "="%char).
Proof.
  unfold bar_cells, Progbar.LENGTH, size_t_wrap, size_t_mod in *.
  set (cur := Progbar.current bar) in *. set (tot := Progbar.total bar) in *.
  pose proof (Z.mod_pos_bound (cur * 40) (2 ^ 64) ltac:(lia)) as Hmod.
  assert (Hle : ((cur * 40) `mod` 2 ^ 64 ≤ cur * 40)%Z) by (apply Z.mod_le; lia).
  assert (Hlen : (0 ≤ ((cur * 40) `mod` 2 ^ 64) `div` tot ≤ 40)%Z).
  { split; [apply Z.div_pos; lia|].
    apply Z.lt_succ_r, Z.div_lt_upper_bound; lia. }
  assert (Hbelow : (cur < tot → ((cur * 40) `mod` 2 ^ 64) `div` tot < 40)%Z).
  { intros Hlt. apply Z.div_lt_upper_bound; lia. }
  split; [|split].
  - rewrite length_app, length_replicate. case_decide; cbn [length].
    + rewrite length_replicate. lia.
    + lia.
  - intros Hlt. rewrite length_app, length_replicate, decide_True by done.
    cbn [length]. rewrite length_replicate. specialize (Hbelow Hlt). lia.
  - intros Heq Hfit. rewrite decide_False by lia.
    rewrite (right_id_L [] (++)). f_equal.
    rewrite Z.mod_small by lia. rewrite Heq, Z.mul_comm, Z.div_mul by lia. done.
Qed.

Lemma bar_cells_fill_the_bar_witness :
  length (bar_cells {| Progbar.current := 1; Progbar.total := 3 |}) = 40.
Proof.
  apply (bar_cells_fill_the_bar {| Progbar.current := 1; Progbar.total := 3 |});
    simpl; lia.
Defined.

(** ** [run], from the input file to the output file *)

Section RunMore.
Context {heap : Heap}.



End RunMore.


(** ** The distance table on prefixes *)

(** X22.  The table of [slow_edit_distance] can be run on any prefixes of
    the two sequences: for lengths within the sequences it reads no cell it
    has not written and no token past the end, and its last cell is the
    least number of edits between the two prefixes. *)
Theorem dp_table_of_prefixes (one two : Field) (len1 len2 : nat)
    (Hlen1 : len1 ≤ length one) (Hlen2 : len2 ≤ length two) :
  ∃ d, dp_table one two len1 len2 = Some d ∧
       min_edits d (take len1 one) (take len2 two).
Proof.
  exists (lev (take len1 one) (take len2 two)). split; [|apply lev_min_edits].
  rewrite dp_table_lev_prefix by done. unfold lev_prefix. by rewrite lev_reverse.
Qed.

Lemma dp_table_of_prefixes_witness :
  ∃ d, dp_table ["a"; "b"; "c"] ["a"; "x"] 2 1 = Some d ∧
       min_edits d ["a"; "b"] ["a"].
Proof.
  apply (dp_table_of_prefixes ["a"; "b"; "c"] ["a"; "x"] 2 1); simpl; lia.
Defined.

(** ** [output_lock] excludes *)



(** ** The output as a table *)

Section Output.
Context {heap : Heap}.

(** X24.  When every line that [load] buffered is longer than
    [local_capacity], so that no record has a view into freed storage, the
    line [run] writes for a pair of the records is a text without newline
    followed by one newline, and splitting that text at tabs gives the two
    ids and then the distances of the pair in decimal: every line of the
    output has the same number of columns, two more than the records have
    fields. *)
Theorem output_lines_have_fixed_columns
    (fuel : nat) (filename : string) (w : world)
    (buffer : list string) (lines : list Line.t) (w1 : world)
    (Hload : load fuel filename w = Done (buffer, lines) w1)
    (Hlong : ∀ l, l ∈ buffer → local_capacity < String.length l) :
  ∃ nf, ∀ i j one two,
    lines !! i = Some one → lines !! j = Some two →
    ∃ body eds,
      pair_line lines (i, j) = body +:+ String newline "" ∧
      ¬ occurs newline body ∧
      process_eds one two = Some eds ∧
      string_split body tab = Line.id one :: Line.id two :: (decimal <$> eds) ∧
      length (string_split body tab) = nf + 2.
Proof.
  destruct (load_same_field_count _ _ _ _ _ _ Hload) as [nf Huni].
  exists nf. intros i j one two Hone Htwo.
  assert (Hin1 : one ∈ lines) by (by eapply list_elem_of_lookup_2).
  assert (Hin2 : two ∈ lines) by (by eapply list_elem_of_lookup_2).
  destruct (load_records_intact _ _ _ _ _ _ _ Hload Hlong Hin1)
    as (l1 & Hr1 & Hwf1 & Hnl1).
  destruct (load_records_intact _ _ _ _ _ _ _ Hload Hlong Hin2)
    as (l2 & Hr2 & Hwf2 & Hnl2).
  destruct (record_of_clean l1 Hwf1 Hnl1) as (Hf1 & Htab1 & Hnew1 & _).
  destruct (record_of_clean l2 Hwf2 Hnl2) as (Hf2 & Htab2 & Hnew2 & _).
  rewrite <- Hr1 in Hf1, Htab1, Hnew1. rewrite <- Hr2 in Hf2, Htab2, Hnew2.
  assert (Hlen : length (Line.fields one) = length (Line.fields two))
    by (by rewrite (Huni one), (Huni two)).
  set (eds := zip_with lev (Line.fields one) (Line.fields two)).
  assert (Heds : length eds = nf).
  { unfold eds. rewrite length_zip_with, <- Hlen, (Huni one) by done. lia. }
  assert (Hne : eds ≠ []).
  { intros Hnil. rewrite Hnil in Heds. cbn in Heds.
    rewrite <- (Huni one Hin1) in Heds. by destruct (Line.fields one). }
  destruct (result_line_body one two eds) as (Hline & Hbody & Hsplit); [done..|].
  eexists _, eds. rewrite (pair_line_spec nf lines i j one two) by done.
  split; [exact Hline|]. split; [exact Hbody|].
  split; [by apply process_eds_spec|]. split; [exact Hsplit|].
  rewrite Hsplit. cbn [length]. rewrite length_fmap. lia.
Qed.

End Output.

Lemma output_lines_have_fixed_columns_witness :
  ∃ buffer lines w1 nf,
    load (heap := observed) 40 "in.tsv" two_long_records =
      Done (buffer, lines) w1 ∧
    ∀ i j one two,
      lines !! i = Some one → lines !! j = Some two →
      ∃ body, pair_line lines (i, j) = body +:+ String newline "" ∧
              length (string_split body tab) = nf + 2.
Proof.
  eassert (Hload : load (heap := observed) 40 "in.tsv" two_long_records =
                   Done (_, _) _)
    by (vm_compute; reflexivity).
  destruct (output_lines_have_fixed_columns _ _ _ _ _ _ Hload) as [nf Hcols].
  { vm_compute. intros l Hl.
    repeat (apply elem_of_cons in Hl as [->|Hl]; [vm_compute; lia|]).
    by apply elem_of_nil in Hl. }
  eexists _, _, _, nf. split; [exact Hload|].
  intros i j one two Hone Htwo.
  destruct (Hcols i j one two Hone Htwo) as (body & eds & Hline & _ & _ & _ & Hlen).
  exists body. split; [exact Hline|exact Hlen].
Defined.

(** * The claims *)

(** C1.  For every pair of token sequences [A] and [B],
    [slow_edit_distance A B] returns (without undefined behaviour) a natural
    number [d] that is the least number of single-token insertions, deletions
    and substitutions that transform [A] into [B]: some [d] edits do it, and
    no fewer do. *)
Theorem slow_edit_distance_is_levenshtein (A B : Field) :
  ∃ d : nat,
    slow_edit_distance A B = Some d ∧
    edits d A B ∧ ∀ n, edits n A B → d ≤ n.
Proof.
  exists (lev A B). split; [apply slow_edit_distance_lev|].
  apply lev_min_edits.
Qed.

(** C7.  For every pair of token sequences, [slow_edit_distance] returns what
    the plain table computation returns when the common suffix is not
    stripped: both the computation that keeps the two shortcuts for an empty
    sequence, and the bare [(len_a+1) x (len_b+1)] table. *)
Theorem suffix_stripping_keeps_distance (A B : Field) :
  ∃ d : nat,
    slow_edit_distance A B = Some d ∧
    plain_edit_distance A B = Some d ∧
    dp_table A B (length A) (length B) = Some d.
Proof.
  exists (lev A B). split; [apply slow_edit_distance_lev|].
  split; [apply plain_edit_distance_lev|apply dp_table_full_lev].
Qed.

(** C9.  For every separator [c]: [string_split] of the empty string is
    empty; of a string that ends with the separator it is the segments before
    that last separator, so that the empty segment after it is the one that is
    left out; of a string that ends with another character it is all the
    segments; and the empty token between two adjacent separators is kept,
    also when nothing follows them.  So ["a "] splits at spaces into
    [["a"]], ["a  b"] into [["a"; ""; "b"]], and ["a  "] into [["a"; ""]]. *)
Theorem string_split_drops_trailing_empty (c : ascii) :
  string_split "" c = [] ∧
  (∀ s, string_split (s +:+ String c "") c = segments s c ∧
        segments (s +:+ String c "") c = segments s c ++ [""]) ∧
  (∀ s a, a ≠ c →
     string_split (s +:+ String a "") c = segments (s +:+ String a "") c) ∧
  (∀ s t, string_split (s +:+ String c (String c t)) c =
            segments s c ++ "" :: string_split t c) ∧
  string_split "a " space = ["a"] ∧
  string_split "a  b" space = ["a"; ""; "b"] ∧
  string_split "a  " space = ["a"; ""].
Proof.
  split; [|split; [|split; [|split; [|split; [|split]]]]].
  - by rewrite string_split_tokens.
  - intros s. split; [|apply segments_ends_with_sep].
    rewrite string_split_tokens. apply tokens_ends_with_sep.
  - intros s a Hac. rewrite string_split_tokens. by apply tokens_ends_with_other.
  - intros s t. rewrite !string_split_tokens, tokens_after_sep.
    simpl. by rewrite decide_True.
  - by rewrite string_split_tokens.
  - by rewrite string_split_tokens.
  - by rewrite string_split_tokens.
Qed.

Section RunClaims.
Context {heap : Heap}.


End RunClaims.


Section LoadClaims.
Context {heap : Heap}.

(** C8.  For every input file that can be opened, [load] returns, and every
    record of its store has the same number of fields, [nf]: the chunk count
    minus one of the first line that splits into at least two tab-delimited
    chunks.  The store has one record for each line that splits into exactly
    [nf + 1] chunks, in the order of the lines, and the record has the
    fields and the tokens of its line in number and in length.  Every other
    line that is not blank, so every such line with at most one chunk and
    every line whose chunk count minus one differs from [nf], is dropped
    with the diagnostic [malformed line: ...], and loading goes on to the end
    of the file; nothing else is written to [cerr], and no file is
    changed.  (A blank line is skipped before it is split.) *)
Theorem load_keeps_records_of_one_field_count
    (fuel : nat) (filename content : string) (w : world)
    (Hfile : files w !! filename = Some content)
    (Hfuel : String.length content + 1 < fuel) :
  let ls := file_lines content in
  let nf := default 0 (field_count ls) in
  ∃ lines w',
    load fuel filename w = Done (filter (λ l, l ≠ "") ls, lines) w' ∧
    (∀ k l, list_find well_formed ls = Some (k, l) → nf = chunk_count l - 1) ∧
    (∀ l, kept nf l ↔ 2 ≤ chunk_count l ∧ chunk_count l - 1 = nf) ∧
    (∀ r, r ∈ lines → length (Line.fields r) = nf) ∧
    Forall2 (λ line r, same_shape r (record_of line)) (filter (kept nf) ls) lines ∧
    cerr w' = cerr w ++ (malformed <$> filter (λ l, l ≠ "" ∧ ¬ kept nf l) ls) ∧
    (∀ l, l ∈ ls → l ≠ "" → chunk_count l ≤ 1 ∨ chunk_count l - 1 ≠ nf →
          malformed l ∈ cerr w') ∧
    files w' = files w.
Proof.
  intros ls nf. eexists _, _. split; [by apply load_opened|].
  fold ls nf. set (buffer := filter (λ l, l ≠ "") ls).
  pose proof (store_of_kept nf buffer (not_blank_filter ls)) as Hstore.
  split.
  { intros k l Hfind. unfold nf, field_count. by rewrite Hfind. }
  split; [done|].
  split.
  { intros r Hr.
    apply store_of_elem in Hr as (slot & line & Hline & Hkept & ->);
      [|apply not_blank_filter].
    rewrite (same_shape_fields _ (record_of line))
      by (apply read_back_shape; [done|by destruct Hkept]).
    by apply kept_record_fields. }
  split.
  { unfold buffer in Hstore. rewrite (proj1 (filters_of_buffer nf ls)) in Hstore.
    eapply Forall2_impl; [exact Hstore|]. by intros line r [Hshape _]. }
  split; [done|]. split; [|done].
  intros l Hin Hne Hbad. cbn. apply elem_of_app. right.
  apply list_elem_of_fmap. exists l. split; [done|].
  apply list_elem_of_filter. split; [|done]. split; [done|].
  unfold kept, well_formed. fold ls nf. lia.
Qed.

End LoadClaims.

Lemma load_keeps_records_of_one_field_count_witness :
  files two_records !! "in.tsv" =
    Some ("a" +:+ TAB +:+ "hello world" +:+ NL +:+ "b" +:+ TAB +:+ "hallo world" +:+ NL) ∧
  ∃ lines w',
    load (heap := observed) 40 "in.tsv" two_records =
      Done (["a" +:+ TAB +:+ "hello world"; "b" +:+ TAB +:+ "hallo world"], lines) w' ∧
    (∀ r, r ∈ lines → length (Line.fields r) = 1) ∧
    cerr w' = [].
Proof.
  split; [reflexivity|].
  destruct (load_keeps_records_of_one_field_count (heap := observed) 40 "in.tsv"
              ("a" +:+ TAB +:+ "hello world" +:+ NL +:+
               "b" +:+ TAB +:+ "hallo world" +:+ NL) two_records)
    as (lines & w' & Hload & _ & _ & Hfields & _ & Hcerr & _);
    [reflexivity|simpl; lia|].
  exists lines, w'. split; [exact Hload|]. split; [exact Hfields|exact Hcerr].
Defined.
Section MainClaims.
Variable PACKAGE_VERSION : string.
Context {heap : Heap}.

(** C5.  For every input whose loaded store has at most one record, the
    progress total that [run] passes to [Progbar] is 0 and there is no pair to
    process; but the run does not complete: the constructor of [Progbar]
    calls [print], which divides by that total.  The run stops there, after
    the output file was opened and before anything was written to it. *)
Theorem run_small_store_divides_by_zero
    (fuel : nat) (filename_in filename_out : string) (w : world)
    (buffer : list string) (lines : list Line.t) (w1 : world)
    (Hload : load fuel filename_in w = Done (buffer, lines) w1)
    (Hsmall : length lines ≤ 1) :
  progbar_total (length lines) = 0%Z ∧
  all_pairs (length lines) = [] ∧
  ∃ fout w2,
    ofstream.open filename_out w1 = Done fout w2 ∧
    (filename_out ∉ unwritable w1 → files w2 !! filename_out = Some "") ∧
    run fuel filename_in filename_out w = Crash Division_by_zero w2.
Proof.
  split; [by apply progbar_total_small|].
  split; [by apply all_pairs_small|].
  rewrite run_eq, Hload. cbn [snd]. rewrite (progbar_total_small _ Hsmall).
  unfold ofstream.open. case_decide as Hw.
  - eexists _, _. split; [done|]. split; [done|]. by rewrite Progbar_new_zero.
  - eexists _, _. split; [done|]. split.
    + intros _. cbn. apply lookup_insert_eq.
    + by rewrite Progbar_new_zero.
Qed.


Lemma main_with_two_arguments fuel argv0 argv1 argv2 more w :
  main PACKAGE_VERSION fuel (argv0 :: argv1 :: argv2 :: more) w =
    if bool_decide ("--help" = argv1) || bool_decide ("--help" = argv2) then
      Done EXIT_SUCCESS
        (world_log w ["usage: " +:+ argv0 +:+ " <input file> <output file> [<field>]"])
    else if bool_decide ("--version" = argv1) || bool_decide ("--version" = argv2) then
      Done EXIT_SUCCESS (world_log w [argv0 +:+ " " +:+ PACKAGE_VERSION])
    else
      match run fuel argv1 argv2 w with
      | Done _ w' => Done EXIT_SUCCESS w'
      | Crash f w' => Crash f w'
      | Out_of_fuel => Out_of_fuel
      end.
Proof.
  unfold main. rewrite decide_False by (simpl; lia).
  rewrite !prog_bind_eq. cbn [defined lookup list_lookup mret prog_ret].
  rewrite !prog_bind_eq. cbn [defined lookup list_lookup mret prog_ret].
  rewrite !prog_bind_eq. cbn [defined lookup list_lookup mret prog_ret].
  destruct (bool_decide ("--help" = argv1) || bool_decide ("--help" = argv2));
    [done|].
  destruct (bool_decide ("--version" = argv1) || bool_decide ("--version" = argv2));
    [done|].
  rewrite prog_bind_eq. by destruct (run fuel argv1 argv2 w).
Qed.


(** C6, amended.  Whenever at least two arguments are given and [--help] is
    the first or the second of them, the program prints the usage text and
    exits with status 0, without reading or writing any file.  With [--help]
    as the only argument it prints the usage text and exits with
    [EXIT_FAILURE]. *)
Theorem help_among_two_arguments
    (fuel : nat) (argv0 argv1 argv2 : string) (more : list string) (w : world)
    (Hhelp : argv1 = "--help" ∨ argv2 = "--help") :
  main PACKAGE_VERSION fuel (argv0 :: argv1 :: argv2 :: more) w =
    Done EXIT_SUCCESS
      (world_log w ["usage: " +:+ argv0 +:+ " <input file> <output file> [<field>]"]) ∧
  main PACKAGE_VERSION fuel [argv0; "--help"] w =
    Done EXIT_FAILURE
      (world_log w ["usage: " +:+ argv0 +:+ " <input file> <output file> [<field>]"]).
Proof.
  split; [|done].
  rewrite main_with_two_arguments.
  destruct Hhelp as [-> | ->].
  - by rewrite (bool_decide_true ("--help" = "--help")) by done.
  - rewrite (bool_decide_true ("--help" = "--help")) by done.
    by rewrite orb_true_r.
Qed.

(** C3, amended.  [load] has no failure path.  When the input file cannot be
    opened, the stream is left with [failbit] and without [eofbit], every
    iteration of the loop of [load] leaves the stream, the store and [cerr] as
    they are, so that no diagnostic is written, and the process does not exit
    with a nonzero status: [load] and [run] do not return whatever the fuel,
    and [main] does not either unless an argument is [--help] or [--version],
    when it exits with status 0 before it loads.  When the file can be
    opened, [load] returns a store. *)
Theorem load_never_reports_failure
    (fuel : nat) (argv0 filename_in filename_out : string) (w : world) :
  (files w !! filename_in = None →
     (∃ fp, ifstream.open filename_in w = Done fp w ∧
            ifstream.eofbit fp = false ∧
            getline fp "" = (fp, "") ∧
            ∀ st, load_line "" st w = Done st w) ∧
     load fuel filename_in w = Out_of_fuel ∧
     run fuel filename_in filename_out w = Out_of_fuel ∧
     (main PACKAGE_VERSION fuel [argv0; filename_in; filename_out] w = Out_of_fuel ∨
      ∃ w', main PACKAGE_VERSION fuel [argv0; filename_in; filename_out] w =
              Done EXIT_SUCCESS w')) ∧
  (∀ content, files w !! filename_in = Some content →
     ∃ store w', load (String.length content + 2) filename_in w = Done store w').
Proof.
  split.
  - intros Hfile. split.
    { unfold ifstream.open. rewrite Hfile. eexists. split; [done|].
      split; [done|]. split; [done|].
      intros st. apply load_line_blank. }
    split; [by apply load_failed|].
    assert (Hrun : run fuel filename_in filename_out w = Out_of_fuel)
      by (by rewrite run_eq, load_failed).
    split; [done|].
    rewrite main_with_two_arguments, Hrun.
    destruct (_ || _); [right; by eexists|].
    destruct (_ || _); [right; by eexists|by left].
  - intros content Hfile. eexists _, _. apply (load_opened _ _ content); [done|lia].
Qed.

End MainClaims.

Lemma run_small_store_divides_by_zero_witness :
  ∃ w2,
    run (heap := observed) 20 "in.tsv" "out.tsv" one_record = Crash Division_by_zero w2 ∧
    files w2 !! "out.tsv" = Some "".
Proof.
  eassert (Hload : load (heap := observed) 20 "in.tsv" one_record = Done (_, _) _)
    by (vm_compute; reflexivity).
  destruct (run_small_store_divides_by_zero 20 "in.tsv" "out.tsv" _ _ _ _ Hload)
    as (_ & _ & fout & w2 & _ & Hfile & Hrun); [simpl; lia|].
  exists w2. split; [exact Hrun|]. apply Hfile. apply not_elem_of_empty.
Defined.

Lemma help_among_two_arguments_witness :
  main (heap := observed) "1.0" 0 ["aped"; "in.tsv"; "--help"] no_files =
    Done EXIT_SUCCESS
      (world_log no_files ["usage: aped <input file> <output file> [<field>]"]).
Proof.
  apply (help_among_two_arguments "1.0" (heap := observed) 0 "aped" "in.tsv"
           "--help" []).
  right. reflexivity.
Defined.

(** C6 as it is stated does not hold: with [--help] as the only argument,
    [argc] is 2, and the program prints the usage text and exits with
    [EXIT_FAILURE]. *)
Lemma help_as_only_argument_fails :
  main (heap := observed) "1.0" 0 ["aped"; "--help"] no_files =
    Done EXIT_FAILURE
      (world_log no_files ["usage: aped <input file> <output file> [<field>]"]) ∧
  EXIT_FAILURE ≠ 0%Z.
Proof. split; [reflexivity|done]. Qed.



Lemma load_never_reports_failure_witness :
  (load (heap := observed) 1000 "in.tsv" no_files = Out_of_fuel ∧
   run (heap := observed) 1000 "in.tsv" "out.tsv" no_files = Out_of_fuel) ∧
  ∃ store w', load (heap := observed) 30 "in.tsv" two_records = Done store w'.
Proof.
  destruct (load_never_reports_failure "1.0" (heap := observed) 1000 "aped"
              "in.tsv" "out.tsv" no_files)
    as [Hmissing _].
  destruct (load_never_reports_failure "1.0" (heap := observed) 0 "aped"
              "in.tsv" "out.tsv" two_records)
    as [_ Hopened].
  split.
  - destruct (Hmissing eq_refl) as (_ & Hload & Hrun & _).
    split; [exact Hload|exact Hrun].
  - apply (Hopened ("a" +:+ TAB +:+ "hello world" +:+ NL +:+
                    "b" +:+ TAB +:+ "hallo world" +:+ NL)). reflexivity.
Defined.

(** C3 as it is stated does not hold: with an input file that cannot be
    opened, no run of the program, however long, exits with a nonzero status,
    and none writes a diagnostic; the process never exits. *)
Lemma missing_input_is_not_reported :
  files no_files !! "in.tsv" = None ∧
  ¬ ∃ (heap : Heap) fuel status w',
      main "1.0" fuel ["aped"; "in.tsv"; "out.tsv"] no_files = Done status w'.
Proof.
  split; [reflexivity|]. intros (heap & fuel & status & w' & Hmain).
  assert (Hrun : main "1.0" fuel ["aped"; "in.tsv"; "out.tsv"] no_files = Out_of_fuel).
  { rewrite main_with_two_arguments. cbn. by rewrite run_eq, load_failed. }
  congruence.
Qed.


Section SinkClaims.
Context {heap : Heap}.


End SinkClaims.



(** ** More on [main] *)

Section MainMore.
Variable PACKAGE_VERSION : string.
Context {heap : Heap}.

(** X25.  [main] fails exactly when fewer than two arguments follow the
    program name: it then prints the usage text and returns [EXIT_FAILURE]
    whatever the one argument is, [--version] included, and touches no file.
    With two arguments or more, any status it returns is [EXIT_SUCCESS].
    Without even a program name it reads [argv[0]], which is null. *)
Theorem main_fails_on_too_few_arguments
    (fuel : nat) (argv : list string) (w : world) :
  match argv with
  | [] => main PACKAGE_VERSION fuel argv w = Crash Out_of_range w
  | argv0 :: arguments =>
      (length arguments < 2 →
       main PACKAGE_VERSION fuel argv w =
         Done EXIT_FAILURE
           (world_log w
              ["usage: " +:+ argv0 +:+ " <input file> <output file> [<field>]"])) ∧
      (2 ≤ length arguments →
       ∀ status w', main PACKAGE_VERSION fuel argv w = Done status w' →
                    status = EXIT_SUCCESS)
  end.
Proof.
  destruct argv as [|argv0 arguments]; [done|]. split.
  - intros Hfew. unfold main. rewrite decide_True by (cbn; lia). done.
  - intros Hmany status w'.
    destruct arguments as [|argv1 [|argv2 more]]; [cbn in Hmany; lia..|].
    rewrite main_with_two_arguments.
    repeat destruct (_ || _); [by intros [= <- _]..|].
    destruct (run _ _ _ _); [by intros [= <- _]|done..].
Qed.

(** X26.  [main] reads its first two arguments only: what is given after
    them, the [<field>] of the usage text included, changes nothing. *)
Theorem main_ignores_further_arguments
    (fuel : nat) (argv0 argv1 argv2 : string) (more : list string) (w : world) :
  main PACKAGE_VERSION fuel (argv0 :: argv1 :: argv2 :: more) w =
    main PACKAGE_VERSION fuel [argv0; argv1; argv2] w.
Proof. by rewrite !main_with_two_arguments. Qed.

(** X27.  With [--version] as the first or the second argument, and
    [--help] as neither, [main] writes the program name and the version to
    [cerr] and returns [EXIT_SUCCESS], without reading or writing any file:
    the other argument is not used as a file name. *)
Theorem main_prints_version
    (fuel : nat) (argv0 argv1 argv2 : string) (more : list string) (w : world)
    (Hhelp : argv1 ≠ "--help" ∧ argv2 ≠ "--help")
    (Hversion : argv1 = "--version" ∨ argv2 = "--version") :
  main PACKAGE_VERSION fuel (argv0 :: argv1 :: argv2 :: more) w =
    Done EXIT_SUCCESS (world_log w [argv0 +:+ " " +:+ PACKAGE_VERSION]).
Proof.
  rewrite main_with_two_arguments. destruct Hhelp as [Hhelp1 Hhelp2].
  rewrite !(bool_decide_false ("--help" = _)) by done. cbn [orb].
  destruct Hversion as [-> | ->].
  - by rewrite (bool_decide_true ("--version" = "--version")) by done.
  - rewrite (bool_decide_true ("--version" = "--version")) by done.
    by rewrite orb_true_r.
Qed.


End MainMore.

Lemma main_prints_version_witness :
  main (heap := observed) "1.0" 0 ["aped"; "in.tsv"; "--version"] no_files =
    Done EXIT_SUCCESS (world_log no_files ["aped 1.0"]).
Proof.
  apply (main_prints_version "1.0" (heap := observed) 0 "aped" "in.tsv"
           "--version" [] no_files).
  - split; discriminate.
  - right. reflexivity.
Defined.

